(** * creme.stream.csv: the sampling [DictReader] and the [iter_csv] generator

    A shallow embedding of [src/creme/stream/csv.py].

    - Python dicts whose keys are field names are finite maps
      ([gmap string value]); the tables [converters] and [parse_dates] are
      walked with [.items()], so they are kept as association lists in
      iteration order.
    - Exceptions are explicit: a computation returns [Ok v] or [Raise e].
    - The csv module's field-size limit is process-wide state, the stream is
      an object shared by the caller, the reader and the generator: both live
      in a [World] that every operation threads through.
    - [iter_csv] is a generator: it is modelled by its resumption function
      [iter_csv_next] on an explicit generator state, and by the driver
      [iter_csv] that pulls until the generator stops or raises.
    - [random.Random] and [datetime.strptime] belong to the Python runtime;
      they are the operations of the class [PyRuntime].
    - The csv reader refuses a field longer than the limit in force and a
      closed stream, and [csv.field_size_limit] refuses a value that is not
      a C long: the three exceptions are part of the model. *)

From Stdlib Require Import QArith.
From stdpp Require Import gmap strings list fin_maps.


(** ** Values, exceptions, results *)

(** [datetime.datetime] objects, field by field. *)
Record datetime := Datetime {
  dt_year : Z; dt_month : Z; dt_day : Z;
  dt_hour : Z; dt_minute : Z; dt_second : Z; dt_microsecond : Z
}.

(** The Python values a record can hold: the raw strings read from the file
    and whatever the converters and the date parser put in their place. *)
Inductive value :=
  | VNone
  | VStr (s : string)
  | VInt (z : Z)
  | VFloat (q : Q)
  | VDatetime (d : datetime).

Inductive exn :=
  | KeyError (k : string)
  | TypeError
  | ValueError
  | OverflowError
  | csv_Error
  | Exception (msg : string).

Inductive result (A : Type) :=
  | Ok (a : A)
  | Raise (e : exn).
Arguments Ok {A} a.
Arguments Raise {A} e.

Definition result_bind {A B} (m : result A) (k : A → result B) : result B :=
  match m with
  | Ok a => k a
  | Raise e => Raise e
  end.

Notation "'do' x <- m ; k" := (result_bind m (fun x => k))
  (at level 10, x name, m at level 100, k at level 200).

Definition is_KeyError (e : exn) : Prop :=
  match e with KeyError _ => True | _ => False end.

(** What [next(it)] can do: hand out an item, signal the end, or raise. *)
Inductive pull (A : Type) :=
  | Yield (a : A)
  | StopIteration
  | Raised (e : exn).
Arguments Yield {A} a.
Arguments StopIteration {A}.
Arguments Raised {A} e.

(** A callable of the [converters] table. *)
Definition converter := value → result value.

(** ** The Python runtime the module calls into *)

Class PyRuntime := {
  (** the state of a [random.Random] instance *)
  rng_state : Type;
  (** [random.Random(seed)] for an integer seed *)
  rng_seed : Z → rng_state;
  (** [rng.random()]: the drawn number and the advanced generator *)
  rng_random : rng_state → Q * rng_state;
  (** draws lie in [0, 1) *)
  rng_random_range : ∀ g, (0 <= (rng_random g).1)%Q ∧ ((rng_random g).1 < 1)%Q;
  (** [datetime.datetime.strptime(s, fmt)] on two strings *)
  strptime : string → string → result datetime
}.

(** ** Process-wide state *)

(** The stream once [csv.reader] sits on it: the rows still to be read and
    whether [close()] was called. *)
Record File := mkFile {
  rows : list (list string);
  closed : bool
}.

Record World := mkWorld {
  (** the limit [csv.field_size_limit()] reads and sets *)
  csv_field_size_limit : Z;
  (** [filepath_or_buffer] after line 113 (passed in open, or just opened) *)
  buffer : File;
  (** what [random.Random(None)] seeds itself with *)
  os_entropy : Z
}.

Definition set_limit (l : Z) (w : World) : World :=
  mkWorld l (buffer w) (os_entropy w).

Definition set_buffer (f : File) (w : World) : World :=
  mkWorld (csv_field_size_limit w) f (os_entropy w).

Definition close (f : File) : File := mkFile (rows f) true.

(** [csv.field_size_limit(new_limit)] converts its argument to a C long (64
    bits here) before it stores it: a value out of that range raises
    OverflowError and leaves the limit as it was. *)
Definition LONG_MIN : Z := - 2 ^ 63.
Definition LONG_MAX : Z := 2 ^ 63 - 1.

Definition in_long (z : Z) : bool := (LONG_MIN <=? z)%Z && (z <=? LONG_MAX)%Z.

Definition csv_set_field_size_limit (l : Z) (w : World) : result World :=
  if in_long l then Ok (set_limit l w) else Raise OverflowError.

(** The reader's test on every character it adds to a field: the field must
    not already have [limit] characters or more. An empty field adds none. *)
Definition field_fits (lim : Z) (s : string) : bool :=
  (String.length s =? 0)%nat || (Z.of_nat (String.length s) <=? lim)%Z.

Definition row_fits (lim : Z) (row : list string) : bool :=
  forallb (field_fits lim) row.

Definition rows_fit (lim : Z) (rs : list (list string)) : bool :=
  forallb (row_fits lim) rs.

(** ** The arguments of [iter_csv] *)

Record config := mkConfig {
  target_name : option string;
  converters : option (list (string * converter));
  parse_dates : option (list (string * string));
  drop : option (list string);
  fraction : Q;
  seed : option Z;
  field_size_limit : option Z
}.

Section Model.
Context `{RT : PyRuntime}.

(** ** [class DictReader(csv.DictReader)] *)

Record DictReader := mkDictReader {
  (** [self.reader.line_num]: lines the underlying reader has consumed *)
  reader_line_num : nat;
  (** [self._fieldnames] *)
  _fieldnames : option (list string);
  (** [self.line_num] *)
  line_num : nat;
  (** [self.fraction] *)
  self_fraction : Q;
  (** [self.rng] *)
  self_rng : rng_state
}.

(** [__init__]: the base class leaves [_fieldnames] unset and [line_num] at
    0. The keyword arguments [iter_csv] forwards choose the dialect, which
    decides how the stream splits into rows; they are not modelled beyond
    the rows themselves. *)
Definition DictReader_init (fr : Q) (g : rng_state) : DictReader :=
  mkDictReader 0 None 0 fr g.

(** [next(self.reader)] under the field-size limit [lim] in force: a closed
    stream is a ValueError, the end of the stream is StopIteration, and a
    row with a field longer than the limit is a [csv.Error], raised after
    the line has been taken off the stream. *)
Definition reader_next (lim : Z) (r : DictReader) (f : File)
  : pull (list string) * DictReader * File :=
  if closed f then (Raised ValueError, r, f)
  else
    match rows f with
    | [] => (StopIteration, r, f)
    | row :: rest =>
        let r' := mkDictReader (S (reader_line_num r)) (_fieldnames r)
                               (line_num r) (self_fraction r) (self_rng r) in
        let f' := mkFile rest (closed f) in
        if row_fits lim row then (Yield row, r', f')
        else (Raised csv_Error, r', f')
    end.

(** The inherited [fieldnames] property: read the header on first use
    (swallowing StopIteration, and nothing else), then refresh [line_num]. *)
Definition fieldnames (lim : Z) (r : DictReader) (f : File)
  : result (option (list string)) * DictReader * File :=
  match _fieldnames r with
  | None =>
      match reader_next lim r f with
      | (Yield h, r', f') =>
          (Ok (Some h),
           mkDictReader (reader_line_num r') (Some h) (reader_line_num r')
                        (self_fraction r') (self_rng r'), f')
      | (StopIteration, r', f') =>
          (Ok None,
           mkDictReader (reader_line_num r') None (reader_line_num r')
                        (self_fraction r') (self_rng r'), f')
      | (Raised e, r', f') => (Raise e, r', f')
      end
  | Some h =>
      (Ok (Some h),
       mkDictReader (reader_line_num r) (Some h) (reader_line_num r)
                    (self_fraction r) (self_rng r), f)
  end.

(** [if self.line_num == 0: self.fieldnames] *)
Definition ensure_header (lim : Z) (r : DictReader) (f : File)
  : result unit * DictReader * File :=
  if Nat.eqb (line_num r) 0
  then match fieldnames lim r f with
       | (Ok _, r', f') => (Ok tt, r', f')
       | (Raise e, r', f') => (Raise e, r', f')
       end
  else (Ok tt, r, f).

(** [fraction < 1] and [draw > fraction]. The fraction and the draws are
    finite numbers and are only ever compared, so exact rationals stand for
    them. *)
Definition lt_one (fr : Q) : bool := negb (Qle_bool 1 fr).
Definition exceeds (u fr : Q) : bool := negb (Qle_bool u fr).

(** [while self.rng.random() > self.fraction: row = next(self.reader)],
    entered with a candidate [row] just read from the stream, which is
    therefore open; [rest] are the rows still in the stream and [n] counts
    the lines read so far. The inner [next] ends the loop with
    StopIteration at the end of the stream and with [csv.Error] on a row
    that does not fit the limit. *)
Fixpoint skip_loop (lim : Z) (fr : Q) (row : list string)
    (rest : list (list string)) (g : rng_state) (n : nat)
  : pull (list string) * list (list string) * rng_state * nat :=
  let '(u, g') := rng_random g in
  if exceeds u fr then
    match rest with
    | [] => (StopIteration, [], g', n)
    | row' :: rest' =>
        if row_fits lim row' then skip_loop lim fr row' rest' g' (S n)
        else (Raised csv_Error, rest', g', S n)
    end
  else (Yield row, rest, g', n).

(** [dict(zip(fieldnames, row))]: pairs are inserted left to right, a later
    pair overwrites an earlier one with the same key, zip stops at the
    shorter sequence. *)
Definition dict_zip (h : list string) (row : list string) : gmap string value :=
  foldl (λ m p, <[p.1 := VStr p.2]> m) ∅ (zip h row).

(** Lines 22 to 28 of [__next__]: read a candidate, skip while sampling
    says so, pair the survivor with the header. *)
Definition read_row (lim : Z) (r1 : DictReader) (f1 : File)
  : pull (gmap string value) * DictReader * File :=
  match reader_next lim r1 f1 with
  | (StopIteration, r2, f2) => (StopIteration, r2, f2)
  | (Raised e, r2, f2) => (Raised e, r2, f2)
  | (Yield row, r2, f2) =>
      let '(cand, rest, g, n) :=
        if lt_one (self_fraction r2)
        then skip_loop lim (self_fraction r2) row (rows f2) (self_rng r2)
                       (reader_line_num r2)
        else (Yield row, rows f2, self_rng r2, reader_line_num r2) in
      let r3 := mkDictReader n (_fieldnames r2) (line_num r2)
                             (self_fraction r2) g in
      let f3 := mkFile rest (closed f2) in
      match cand with
      | StopIteration => (StopIteration, r3, f3)
      | Raised e => (Raised e, r3, f3)
      | Yield row' =>
          match fieldnames lim r3 f3 with
          | (Ok (Some h), r4, f4) => (Yield (dict_zip h row'), r4, f4)
          | (Ok None, r4, f4) => (Raised TypeError, r4, f4)
          | (Raise e, r4, f4) => (Raised e, r4, f4)
          end
      end
  end.

(** [DictReader.__next__], called while the limit in force is [lim]. *)
Definition DictReader_next (lim : Z) (r : DictReader) (f : File)
  : pull (gmap string value) * DictReader * File :=
  match ensure_header lim r f with
  | (Ok _, r1, f1) => read_row lim r1 f1
  | (Raise e, r1, f1) => (Raised e, r1, f1)
  end.

(** ** The body of the [for] loop of [iter_csv] *)

(** [del x[i]] *)
Definition delitem (i : string) (x : gmap string value)
  : result (gmap string value) :=
  match x !! i with
  | Some _ => Ok (delete i x)
  | None => Raise (KeyError i)
  end.

(** [x[i]] *)
Definition getitem (i : string) (x : gmap string value) : result value :=
  match x !! i with
  | Some v => Ok v
  | None => Raise (KeyError i)
  end.

(** [for i in drop: del x[i]] *)
Fixpoint del_fields (l : list string) (x : gmap string value)
  : result (gmap string value) :=
  match l with
  | [] => Ok x
  | i :: l' => do x' <- delitem i x; del_fields l' x'
  end.

(** [if drop: ...]: [None] and the empty list are both falsy. *)
Definition drop_stage (d : option (list string)) (x : gmap string value)
  : result (gmap string value) :=
  match d with
  | Some (i :: l) => del_fields (i :: l) x
  | _ => Ok x
  end.

(** [for i, t in converters.items(): x[i] = t(x[i])] *)
Fixpoint apply_converters (c : list (string * converter)) (x : gmap string value)
  : result (gmap string value) :=
  match c with
  | [] => Ok x
  | (i, t) :: c' =>
      do v <- getitem i x;
      do v' <- t v;
      apply_converters c' (<[i := v']> x)
  end.

Definition convert_stage (c : option (list (string * converter)))
    (x : gmap string value) : result (gmap string value) :=
  match c with
  | Some c => apply_converters c x
  | None => Ok x
  end.

(** [dt.datetime.strptime(v, fmt)]: anything but a [str] is a TypeError. *)
Definition parse_date (fmt : string) (v : value) : result value :=
  match v with
  | VStr s => do d <- strptime s fmt; Ok (VDatetime d)
  | _ => Raise TypeError
  end.

(** [for i, fmt in parse_dates.items(): x[i] = strptime(x[i], fmt)] *)
Fixpoint apply_parse_dates (p : list (string * string)) (x : gmap string value)
  : result (gmap string value) :=
  match p with
  | [] => Ok x
  | (i, fmt) :: p' =>
      do v <- getitem i x;
      do v' <- parse_date fmt v;
      apply_parse_dates p' (<[i := v']> x)
  end.

Definition parse_stage (p : option (list (string * string)))
    (x : gmap string value) : result (gmap string value) :=
  match p with
  | Some p => apply_parse_dates p x
  | None => Ok x
  end.

(** [x.pop(target_name, None)]. The keys of [x] are strings, so the default
    [target_name=None] is never found. *)
Definition pop (k : option string) (x : gmap string value)
  : gmap string value * value :=
  match k with
  | Some k =>
      match x !! k with
      | Some v => (delete k x, v)
      | None => (x, VNone)
      end
  | None => (x, VNone)
  end.

(** Lines 122 to 134 (the three in-place stages), then lines 137 and 139:
    what one iteration does to the record [x] before [yield x, y]. *)
Definition transform (cfg : config) (x : gmap string value)
  : result (gmap string value) :=
  do x1 <- drop_stage (drop cfg) x;
  do x2 <- convert_stage (converters cfg) x1;
  parse_stage (parse_dates cfg) x2.

Definition process_record (cfg : config) (x : gmap string value)
  : result (gmap string value * value) :=
  do x3 <- transform cfg x;
  Ok (pop (target_name cfg) x3).

(** ** The generator *)

(** [random.Random(seed)]; without a seed the operating system provides one. *)
Definition Random (s : option Z) (w : World) : rng_state :=
  match s with
  | Some z => rng_seed z
  | None => rng_seed (os_entropy w)
  end.

(** A generator object is not yet started, suspended at [yield] with its
    locals ([limit] and the reader), or finished. *)
Inductive gen_state :=
  | Created
  | Suspended (limit : Z) (r : DictReader)
  | Finished.

(** One turn of the [for] loop, up to the next [yield], to the end of the
    function (lines 142 and 145), or to an exception leaving the frame. The
    reader works under the limit in force at that moment. *)
Definition loop_step (cfg : config) (limit : Z) (r : DictReader) (w : World)
  : pull (gmap string value * value) * gen_state * World :=
  match DictReader_next (csv_field_size_limit w) r (buffer w) with
  | (Yield x, r', f') =>
      match process_record cfg x with
      | Ok xy => (Yield xy, Suspended limit r', set_buffer f' w)
      | Raise e => (Raised e, Finished, set_buffer f' w)
      end
  | (StopIteration, r', f') =>
      let w1 := set_buffer (close f') w in
      match csv_set_field_size_limit limit w1 with
      | Ok w2 => (StopIteration, Finished, w2)
      | Raise e => (Raised e, Finished, w1)
      end
  | (Raised e, r', f') => (Raised e, Finished, set_buffer f' w)
  end.

(** [next(gen)] on the generator [iter_csv(...)] returned. *)
Definition iter_csv_next (cfg : config) (g : gen_state) (w : World)
  : pull (gmap string value * value) * gen_state * World :=
  match g with
  | Created =>
      let limit := csv_field_size_limit w in
      match field_size_limit cfg with
      | Some l =>
          match csv_set_field_size_limit l w with
          | Ok w1 =>
              loop_step cfg limit
                (DictReader_init (fraction cfg) (Random (seed cfg) w1)) w1
          | Raise e => (Raised e, Finished, w)
          end
      | None =>
          loop_step cfg limit
            (DictReader_init (fraction cfg) (Random (seed cfg) w)) w
      end
  | Suspended limit r => loop_step cfg limit r w
  | Finished => (StopIteration, Finished, w)
  end.

(** How a consumer's loop over an iterator ends. *)
Inductive ending :=
  | Exhausted
  | Aborted (e : exn)
  | OutOfFuel.

(** [for xy in gen: ...] collecting what is yielded. *)
Fixpoint consume (cfg : config) (fuel : nat) (g : gen_state) (w : World)
  : list (gmap string value * value) * ending * gen_state * World :=
  match fuel with
  | 0 => ([], OutOfFuel, g, w)
  | S fuel' =>
      match iter_csv_next cfg g w with
      | (Yield xy, g', w') =>
          let '(ys, e, g'', w'') := consume cfg fuel' g' w' in
          (xy :: ys, e, g'', w'')
      | (StopIteration, g', w') => ([], Exhausted, g', w')
      | (Raised e, g', w') => ([], Aborted e, g', w')
      end
  end.

(** A whole session: the generator is created and pulled to its end. Every
    [yield] takes at least one row off the stream, so one more pull than
    there are rows always reaches the end. *)
Definition iter_csv (cfg : config) (w : World)
  : list (gmap string value * value) * ending * gen_state * World :=
  consume cfg (S (length (rows (buffer w)))) Created w.

(** The world after [n] pulls on a fresh generator, whatever they returned. *)
Fixpoint pulls (cfg : config) (n : nat) (w : World) : gen_state * World :=
  match n with
  | 0 => (Created, w)
  | S n' =>
      let '(g, w') := pulls cfg n' w in
      let '(_, g', w'') := iter_csv_next cfg g w' in
      (g', w'')
  end.

(** [for x in DictReader(...)] on its own, under a limit that stays in
    force: the records the reader hands out. *)
Fixpoint DictReader_iter (lim : Z) (fuel : nat) (r : DictReader) (f : File)
  : list (gmap string value) * ending * DictReader * File :=
  match fuel with
  | 0 => ([], OutOfFuel, r, f)
  | S fuel' =>
      match DictReader_next lim r f with
      | (Yield x, r', f') =>
          let '(xs, e, r'', f'') := DictReader_iter lim fuel' r' f' in
          (x :: xs, e, r'', f'')
      | (StopIteration, r', f') => ([], Exhausted, r', f')
      | (Raised e, r', f') => ([], Aborted e, r', f')
      end
  end.

End Model.

(** ** Describing a session *)

Section Description.
Context `{RT : PyRuntime}.

(** The generator after [n] draws, and the [j]-th draw (counting from 0). *)
Fixpoint rng_iter (n : nat) (g : rng_state) : rng_state :=
  match n with
  | 0 => g
  | S n' => rng_iter n' (rng_random g).2
  end.

Definition draw (j : nat) (g : rng_state) : Q := (rng_random (rng_iter j g)).1.

(** One draw per data row, in order: the row is kept unless its draw
    exceeds the fraction. *)
Fixpoint bernoulli (fr : Q) (g : rng_state) (data : list (list string))
  : list (list string) :=
  match data with
  | [] => []
  | row :: rest =>
      let '(u, g') := rng_random g in
      if exceeds u fr then bernoulli fr g' rest else row :: bernoulli fr g' rest
  end.

Definition accepted_rows (fr : Q) (g : rng_state) (data : list (list string))
  : list (list string) :=
  if lt_one fr then bernoulli fr g data else data.

(** The loop body run over a list of records; [e] is how the source of
    the records ended. *)
Fixpoint run_body (cfg : config) (xs : list (gmap string value)) (e : ending)
  : list (gmap string value * value) * ending :=
  match xs with
  | [] => ([], e)
  | x :: xs' =>
      match process_record cfg x with
      | Ok p => let '(ys, e') := run_body cfg xs' e in (p :: ys, e')
      | Raise ex => ([], Aborted ex)
      end
  end.

(** The rows the reader gets through before one does not fit the limit. *)
Fixpoint fit_prefix (lim : Z) (rs : list (list string)) : list (list string) :=
  match rs with
  | [] => []
  | row :: rest => if row_fits lim row then row :: fit_prefix lim rest else []
  end.

(** What iterating a fresh reader over the stream [f] hands out, and how the
    iteration ends, when the limit in force is [lim] throughout. *)
Definition reader_records (lim : Z) (fr : Q) (g : rng_state) (f : File)
  : list (gmap string value) :=
  if closed f then []
  else match rows f with
       | [] => []
       | h :: data =>
           if row_fits lim h
           then dict_zip h <$> accepted_rows fr g (fit_prefix lim data)
           else []
       end.

Definition reader_end (lim : Z) (f : File) : ending :=
  if closed f then Aborted ValueError
  else if rows_fit lim (rows f) then Exhausted
  else Aborted csv_Error.

(** The limit a session reads under: its own [field_size_limit] when that
    can be installed, the limit it found when it has none; [None] when the
    installation fails, and the session with it. *)
Definition session_limit (cfg : config) (w : World) : option Z :=
  match field_size_limit cfg with
  | Some l => if in_long l then Some l else None
  | None => Some (csv_field_size_limit w)
  end.

(** The records the reader of a session hands out when it is iterated to
    its end. *)
Definition session_records (cfg : config) (w : World) : list (gmap string value) :=
  match session_limit cfg w with
  | Some lim =>
      (DictReader_iter lim (S (length (rows (buffer w))))
         (DictReader_init (fraction cfg) (Random (seed cfg) w)) (buffer w)).1.1.1
  | None => []
  end.

(** How the generator ends once its reader has ended with [en]: a reader at
    the end of the stream lets it close the stream and write the saved
    limit back, which fails if that value is not a C long. *)
Definition restored (saved : Z) (en : ending) : ending :=
  match en with
  | Exhausted => if in_long saved then Exhausted else Aborted OverflowError
  | _ => en
  end.

(** How a session ends when the loop body fails on none of its records:
    with the exception of the installation, or of the reader, or of the
    final restoration, and normally otherwise. *)
Definition session_end (cfg : config) (w : World) : ending :=
  match session_limit cfg w with
  | Some lim =>
      restored (csv_field_size_limit w)
        (DictReader_iter lim (S (length (rows (buffer w))))
           (DictReader_init (fraction cfg) (Random (seed cfg) w))
           (buffer w)).1.1.2
  | None => Aborted OverflowError
  end.

(** Nothing stands in the way of reading the whole stream: it is open, the
    limit the session found is a C long, the session's limit can be
    installed and every field fits it. *)
Definition clean (cfg : config) (w : World) : bool :=
  negb (closed (buffer w))
  && in_long (csv_field_size_limit w)
  && match session_limit cfg w with
     | Some lim => rows_fit lim (rows (buffer w))
     | None => false
     end.

(** The record [x] maps header names to the values of [row]: its keys are
    the header names the row reaches, and each holds the value of the last
    column of that name that the row reaches. *)
Definition zipped (h row : list string) (x : gmap string value) : Prop :=
  dom x = list_to_set (take (length row) h)
  ∧ ∀ i nm s, h !! i = Some nm → row !! i = Some s →
      (∀ j, i < j → j < length row → h !! j ≠ Some nm) →
      x !! nm = Some (VStr s).

(** Where a reader stands before a pull: [data] are the rows it has yet to
    read as data and [h] is its header, still to be read from the stream
    or already known; on an empty stream there is neither. *)
Inductive at_data (lim : Z) (r : DictReader) (f : File)
    (h : list string) (data : list (list string)) : Prop :=
  | header_pending :
      _fieldnames r = None → line_num r = 0 →
      rows f = h :: data → row_fits lim h = true →
      at_data lim r f h data
  | stream_empty :
      _fieldnames r = None → line_num r = 0 →
      rows f = [] → data = [] →
      at_data lim r f h data
  | header_known :
      _fieldnames r = Some h → rows f = data →
      at_data lim r f h data.

(** The two table-driven loops have one shape: look the field up, call
    something on its value, store the result back. *)
Fixpoint apply_table {A} (call : A → value → result value)
    (tbl : list (string * A)) (x : gmap string value)
  : result (gmap string value) :=
  match tbl with
  | [] => Ok x
  | (i, a) :: tbl' =>
      do v <- getitem i x;
      do v' <- call a v;
      apply_table call tbl' (<[i := v']> x)
  end.

(** The ways a stage of the loop body fails on a record, with the exception
    it raises: the drop loop reaches a name the record no longer has, or a
    converter, or the date parser, raises on the value it is applied to. *)
Inductive stage_failure (cfg : config) (x : gmap string value) : exn → Prop :=
  | drop_missing l1 n l2 x' :
      drop cfg = Some (l1 ++ n :: l2) →
      del_fields l1 x = Ok x' →
      x' !! n = None →
      stage_failure cfg x (KeyError n)
  | converter_raises c1 i t c2 x1 x2 v e :
      drop_stage (drop cfg) x = Ok x1 →
      converters cfg = Some (c1 ++ (i, t) :: c2) →
      apply_converters c1 x1 = Ok x2 →
      x2 !! i = Some v →
      t v = Raise e →
      stage_failure cfg x e
  | date_parse_raises p1 i fmt p2 x1 x2 x3 v e :
      drop_stage (drop cfg) x = Ok x1 →
      convert_stage (converters cfg) x1 = Ok x2 →
      parse_dates cfg = Some (p1 ++ (i, fmt) :: p2) →
      apply_parse_dates p1 x2 = Ok x3 →
      x3 !! i = Some v →
      parse_date fmt v = Raise e →
      stage_failure cfg x e.

(** The ways a table loop fails to find its field: the converters loop, or
    the parse_dates loop, reaches a name the record does not have when its
    turn comes; the lookup raises the KeyError of that name. *)
Inductive missing_field (cfg : config) (x : gmap string value) : string → Prop :=
  | converter_field_missing c1 i t c2 x1 x2 :
      drop_stage (drop cfg) x = Ok x1 →
      converters cfg = Some (c1 ++ (i, t) :: c2) →
      apply_converters c1 x1 = Ok x2 →
      x2 !! i = None →
      missing_field cfg x i
  | date_field_missing p1 i fmt p2 x1 x2 x3 :
      drop_stage (drop cfg) x = Ok x1 →
      convert_stage (converters cfg) x1 = Ok x2 →
      parse_dates cfg = Some (p1 ++ (i, fmt) :: p2) →
      apply_parse_dates p1 x2 = Ok x3 →
      x3 !! i = None →
      missing_field cfg x i.

(** [tbl.get(k)] on a table kept in iteration order. *)
Fixpoint assoc {A} (k : string) (tbl : list (string * A)) : option A :=
  match tbl with
  | [] => None
  | (i, a) :: tbl' => if decide (i = k) then Some a else assoc k tbl'
  end.

(** What the convert and parse-dates loops together do to the value [v] of
    the field [k]: the converter registered for [k], if any, then the date
    format registered for [k], if any. *)
Definition field_value (cfg : config) (k : string) (v : value) : result value :=
  do v1 <- match converters cfg ≫= assoc k with
           | Some t => t v
           | None => Ok v
           end;
  match parse_dates cfg ≫= assoc k with
  | Some fmt => parse_date fmt v1
  | None => Ok v1
  end.

(** The keys of a table that may be absent. *)
Definition keys {A} (tbl : option (list (string * A))) : list string :=
  match tbl with
  | Some t => t.*1
  | None => []
  end.

End Description.

(** ** A small runtime to run the model on *)

Module Toy.

(** A generator whose state is a number: each draw is its last decimal
    digit over ten, and the digit is then dropped. Seed 905 draws
    0.5, 0.0, 0.9, then 0.0 for ever. *)
Definition toy_random (z : Z) : Q * Z := (((z mod 10) # 10)%Q, (z / 10)%Z).

Lemma toy_random_range (z : Z) :
  (0 <= (toy_random z).1)%Q ∧ ((toy_random z).1 < 1)%Q.
Proof.
  pose proof (Z.mod_pos_bound z 10 eq_refl) as Hb.
  unfold toy_random, Qle, Qlt; simpl. lia.
Qed.

Definition digit (a : Ascii.ascii) : option Z :=
  let n := Z.of_nat (Ascii.nat_of_ascii a) in
  if bool_decide (48 ≤ n ≤ 57)%Z then Some (n - 48)%Z else None.

Fixpoint digits (s : string) (acc : Z) : option Z :=
  match s with
  | EmptyString => Some acc
  | String a s' =>
      match digit a with
      | Some d => digits s' (10 * acc + d)
      | None => None
      end
  end.

(** [strptime] restricted to the format [%Y]: four digits give the first of
    January of that year at midnight, anything else is a ValueError. *)
Definition strptime_year (s fmt : string) : result datetime :=
  if bool_decide (fmt = "%Y") then
    match digits s 0 with
    | Some y => if bool_decide (String.length s = 4)
                then Ok (Datetime y 1 1 0 0 0 0) else Raise ValueError
    | None => Raise ValueError
    end
  else Raise ValueError.

Definition runtime : PyRuntime :=
  {| rng_state := Z;
     rng_seed := Z.abs;
     rng_random := toy_random;
     rng_random_range := toy_random_range;
     strptime := strptime_year |}.

(** Converters: a decimal parser (ValueError on anything else) and
    [lambda s: s[:4]]. *)
Definition to_int : converter := λ v,
  match v with
  | VStr (String a s) =>
      match digits (String a s) 0 with
      | Some z => Ok (VInt z)
      | None => Raise ValueError
      end
  | VStr EmptyString => Raise ValueError
  | _ => Raise TypeError
  end.

Definition first4 : converter := λ v,
  match v with
  | VStr s => Ok (VStr (String.substring 0 4 s))
  | _ => Raise TypeError
  end.

Definition tv_shows : list (list string) :=
  [ ["name"; "year"; "rating"];
    ["Planet Earth II"; "2016"; "95"];
    ["Planet Earth"; "2006"; "94"];
    ["Band of Brothers"; "2001"; "94"] ].

Definition world (rs : list (list string)) : World :=
  mkWorld 131072 (mkFile rs false) 0.

Definition defaults : config :=
  mkConfig None None None None 1 None None.

(** [iter_csv(f, target_name='rating', converters={'rating': to_int},
    parse_dates={'year': '%Y'})] *)
Definition rated : config :=
  mkConfig (Some "rating") (Some [("rating", to_int)]) (Some [("year", "%Y")])
           None 1 None None.

(** The target field has a converter and a date format. *)
Definition year_target : config :=
  mkConfig (Some "year") (Some [("year", first4)]) (Some [("year", "%Y")])
           None 1 None None.

Definition releases : list (list string) :=
  [ ["name"; "year"]; ["Planet Earth II"; "2016-11"] ].

(** A row shorter and a row longer than the header. *)
Definition ragged : list (list string) :=
  [ ["a"; "b"]; ["1"]; ["1"; "2"; "3"] ].

(** Half of the rows, seed 59: the draws are 0.9, 0.5, 0.0, ... *)
Definition halved : config :=
  mkConfig (Some "rating") None None None (1 # 2) (Some 59%Z) None.

(** A drop list naming a field the file does not have, and a larger
    field-size limit for the session. *)
Definition drop_unknown : config :=
  mkConfig None None None (Some ["zzz"]) 1 None (Some 262144%Z).

(** The second data row has a rating that is not a number. *)
Definition unrated : list (list string) :=
  [ ["name"; "year"; "rating"];
    ["Planet Earth II"; "2016"; "95"];
    ["Planet Earth"; "2006"; "n/a"];
    ["Band of Brothers"; "2001"; "94"] ].

(** [rating] is dropped and converted; [year] is converted before it. *)
Definition drop_and_convert : config :=
  mkConfig None (Some [("year", to_int); ("rating", to_int)]) None
           (Some ["rating"]) 1 None None.

Definition roman : list (list string) :=
  [ ["name"; "year"; "rating"]; ["Planet Earth II"; "MMXVI"; "95"] ].

(** [year] is dropped and is the target. *)
Definition drop_target : config :=
  mkConfig (Some "year") None None (Some ["year"]) 1 None None.

(** A name twice in the drop list. *)
Definition drop_twice : config :=
  mkConfig None None None (Some ["name"; "name"]) 1 None None.

(** Fractions outside of (0, 1]. *)
Definition negative : config :=
  mkConfig (Some "rating") None None None (-1 # 2) (Some 59%Z) None.

Definition doubled : config :=
  mkConfig (Some "rating") None None None 2 (Some 59%Z) None.

(** Half of the rows, seed 905: the draws are 0.5, 0.0, 0.9, so the last
    data row is discarded. *)
Definition halved_tail : config :=
  mkConfig (Some "rating") None None None (1 # 2) (Some 905%Z) None.

(** A larger limit on a session that runs without failure. *)
Definition larger_limit : config :=
  mkConfig None None None None 1 None (Some 262144%Z).

(** The target is the second column. *)
Definition second_column : config :=
  mkConfig (Some "b") None None None 1 None None.

(** A limit that is not a C long: 2 ** 63. *)
Definition huge_limit : config :=
  mkConfig None None None None 1 None (Some 9223372036854775808%Z).

(** A limit of 15 characters: [Band of Brothers] has 16. *)
Definition tight_limit : config :=
  mkConfig (Some "rating") None None None 1 None (Some 15%Z).

(** The loop body's pair for a record, for sessions known to succeed. *)
Definition pair_of (cfg : config) (x : gmap string value)
  : gmap string value * value :=
  match process_record (RT := runtime) cfg x with
  | Ok p => p
  | Raise _ => (∅, VNone)
  end.

(** The reader a suspended generator holds. *)
Definition reader_of (gs : gen_state (RT := runtime)) : DictReader (RT := runtime) :=
  match gs with
  | Suspended _ r => r
  | _ => DictReader_init (RT := runtime) 1 0%Z
  end.

End Toy.

(** * Properties *)

Section Properties.
Context `{RT : PyRuntime}.

Implicit Types (x : gmap string value) (r : DictReader) (f : File)
  (w : World) (cfg : config) (g : rng_state) (fr : Q) (e : exn).

(** ** Comparisons *)

Lemma lt_one_true fr : lt_one fr = true ↔ (fr < 1)%Q.
Proof.
  unfold lt_one. rewrite negb_true_iff, <- not_true_iff_false, Qle_bool_iff.
  split; [apply Qnot_le_lt | apply Qlt_not_le].
Qed.

Lemma lt_one_false fr : lt_one fr = false ↔ (1 <= fr)%Q.
Proof. unfold lt_one. by rewrite negb_false_iff, Qle_bool_iff. Qed.

Lemma exceeds_true u fr : exceeds u fr = true ↔ (fr < u)%Q.
Proof.
  unfold exceeds. rewrite negb_true_iff, <- not_true_iff_false, Qle_bool_iff.
  split; [apply Qnot_le_lt | apply Qlt_not_le].
Qed.

Lemma exceeds_false u fr : exceeds u fr = false ↔ (u <= fr)%Q.
Proof. unfold exceeds. by rewrite negb_false_iff, Qle_bool_iff. Qed.

(** ** Rows that fit the limit *)

Lemma fit_prefix_sublist lim rs : fit_prefix lim rs `sublist_of` rs.
Proof.
  induction rs as [|row rs IH]; simpl; [done |].
  destruct (row_fits lim row); [by apply sublist_skip | apply sublist_nil_l].
Qed.

Lemma fit_prefix_all lim rs : rows_fit lim rs = true → fit_prefix lim rs = rs.
Proof.
  induction rs as [|row rs IH]; simpl; [done |].
  intros [-> Hrs]%andb_true_iff. by rewrite IH.
Qed.

(** ** The skip loop is one Bernoulli trial per row *)

Lemma skip_loop_bernoulli lim fr rest : ∀ row g n,
  match skip_loop lim fr row rest g n with
  | (Yield row', rest', g', _) =>
      bernoulli fr g (row :: fit_prefix lim rest)
        = row' :: bernoulli fr g' (fit_prefix lim rest')
      ∧ length rest' ≤ length rest
      ∧ rows_fit lim rest' = rows_fit lim rest
  | (StopIteration, rest', g', _) =>
      bernoulli fr g (row :: fit_prefix lim rest) = []
      ∧ rest' = [] ∧ rows_fit lim rest = true
  | (Raised e, rest', g', _) =>
      e = csv_Error
      ∧ bernoulli fr g (row :: fit_prefix lim rest) = []
      ∧ rows_fit lim rest = false
  end.
Proof.
  induction rest as [|row1 rest IH]; intros row g n; simpl;
    destruct (rng_random g) as [u g'] eqn:Hg; destruct (exceeds u fr) eqn:Hu;
    try (split_and!; done || lia).
  destruct (row_fits lim row1) eqn:Hfit; simpl; [| done].
  specialize (IH row1 g' (S n)).
  destruct (skip_loop lim fr row1 rest g' (S n)) as [[[[row'| |e] rest'] g''] n'].
  - destruct IH as (IH1 & IH2 & IH3). split_and!; [done | lia | done].
  - done.
  - done.
Qed.

Lemma bernoulli_sublist fr data : ∀ g, sublist (bernoulli fr g data) data.
Proof.
  induction data as [|row data IH]; intros g; simpl; [constructor |].
  destruct (rng_random g) as [u g']. destruct (exceeds u fr).
  - by apply sublist_cons.
  - by apply sublist_skip.
Qed.

Lemma accepted_rows_sublist fr g data : sublist (accepted_rows fr g data) data.
Proof.
  unfold accepted_rows. destruct (lt_one fr); [apply bernoulli_sublist | done].
Qed.

(** ** One pull of the reader *)

Lemma fieldnames_known lim h r f :
  _fieldnames r = Some h →
  fieldnames lim r f =
    (Ok (Some h),
     mkDictReader (reader_line_num r) (Some h) (reader_line_num r)
                  (self_fraction r) (self_rng r), f).
Proof. intros Hh. unfold fieldnames. by rewrite Hh. Qed.

(** Once the header is known, [ensure_header] touches nothing the reader
    looks at again. *)
Lemma ensure_header_known lim h r f :
  _fieldnames r = Some h →
  ∃ r1, ensure_header lim r f = (Ok tt, r1, f) ∧ _fieldnames r1 = Some h
        ∧ self_fraction r1 = self_fraction r ∧ self_rng r1 = self_rng r.
Proof.
  intros Hh. unfold ensure_header. destruct (line_num r =? 0)%nat.
  - rewrite (fieldnames_known lim h) by done. eauto.
  - eauto.
Qed.

(** On a fresh reader over an open stream [ensure_header] reads the first
    line as the header, finds the stream empty, or fails on a header that
    does not fit the limit. *)
Lemma ensure_header_fresh lim r f :
  _fieldnames r = None → line_num r = 0 → closed f = false →
  match rows f with
  | [] => ∃ r1, ensure_header lim r f = (Ok tt, r1, f) ∧ _fieldnames r1 = None
                ∧ self_fraction r1 = self_fraction r ∧ self_rng r1 = self_rng r
  | h :: data =>
      if row_fits lim h then
        ∃ r1, ensure_header lim r f = (Ok tt, r1, mkFile data (closed f))
              ∧ _fieldnames r1 = Some h
              ∧ self_fraction r1 = self_fraction r ∧ self_rng r1 = self_rng r
      else
        ∃ r1, ensure_header lim r f = (Raise csv_Error, r1, mkFile data (closed f))
              ∧ self_rng r1 = self_rng r
  end.
Proof.
  intros Hn Hl Hc. unfold ensure_header, fieldnames, reader_next.
  rewrite Hl, Hn, Hc; simpl. destruct (rows f) as [|h data]; simpl; [eauto 10 |].
  destruct (row_fits lim h); simpl; eauto 10.
Qed.

(** Lines 22 to 28 with a known header [h] on an open stream: the outcome,
    read off the Bernoulli description of the rows that fit the limit. *)
Lemma read_row_known lim h r f :
  _fieldnames r = Some h → closed f = false →
  ∃ out r' f',
    read_row lim r f = (out, r', f')
    ∧ _fieldnames r' = Some h
    ∧ self_fraction r' = self_fraction r
    ∧ closed f' = closed f
    ∧ (lt_one (self_fraction r) = false → self_rng r' = self_rng r)
    ∧ match out with
      | Yield x =>
          ∃ row, x = dict_zip h row
            ∧ accepted_rows (self_fraction r) (self_rng r)
                (fit_prefix lim (rows f))
              = row :: accepted_rows (self_fraction r) (self_rng r')
                         (fit_prefix lim (rows f'))
            ∧ length (rows f') < length (rows f)
            ∧ rows_fit lim (rows f') = rows_fit lim (rows f)
      | StopIteration =>
          accepted_rows (self_fraction r) (self_rng r)
            (fit_prefix lim (rows f)) = []
          ∧ rows f' = [] ∧ rows_fit lim (rows f) = true
      | Raised e =>
          e = csv_Error
          ∧ accepted_rows (self_fraction r) (self_rng r)
              (fit_prefix lim (rows f)) = []
          ∧ rows_fit lim (rows f) = false
      end.
Proof.
  intros Hh Hc. unfold read_row, reader_next, accepted_rows. rewrite Hc.
  destruct (rows f) as [|row rest] eqn:Hrows; simpl.
  { exists StopIteration, r, f. rewrite Hrows.
    split_and!; try done. by destruct (lt_one _). }
  destruct (row_fits lim row) eqn:Hfit; simpl.
  2:{ eexists _, _, _. split; [done |]. simpl. split_and!; try done.
      by destruct (lt_one _). }
  destruct (lt_one (self_fraction r)) eqn:Hlt.
  - pose proof (skip_loop_bernoulli lim (self_fraction r) rest row (self_rng r)
                  (S (reader_line_num r))) as Hs.
    destruct (skip_loop _ _ _ _ _ _) as [[[[row'| |e] rest'] g'] n'].
    + destruct Hs as (Hb & Hlen & Hfits).
      rewrite (fieldnames_known lim h) by done. simpl.
      eexists _, _, _. split; [done |]. simpl.
      split_and!; try done. exists row'. split_and!; [done | done | simpl; lia | done].
    + destruct Hs as (Hb & -> & Hfits).
      eexists _, _, _. split; [done |]. simpl. by split_and!.
    + destruct Hs as (-> & Hb & Hfits).
      eexists _, _, _. split; [done |]. simpl. by split_and!.
  - rewrite (fieldnames_known lim h) by done. simpl.
    eexists _, _, _. split; [done |]. simpl.
    split_and!; try done. exists row. split_and!; [done | done | simpl; lia | done].
Qed.

Lemma DictReader_next_known lim h r f :
  _fieldnames r = Some h →
  ∃ r1, DictReader_next lim r f = read_row lim r1 f ∧ _fieldnames r1 = Some h
        ∧ self_fraction r1 = self_fraction r ∧ self_rng r1 = self_rng r.
Proof.
  intros Hh. destruct (ensure_header_known lim h r f Hh) as (r1 & He & ?).
  exists r1. unfold DictReader_next. by rewrite He.
Qed.

(** ** Iterating the reader *)

(** The iteration of the reader from the point where the header is known. *)
Lemma DictReader_iter_known lim h : ∀ fuel r f r1 f1,
  DictReader_next lim r f = read_row lim r1 f1 →
  _fieldnames r1 = Some h →
  closed f1 = false →
  length (rows f1) < fuel →
  ∃ r' f',
    DictReader_iter lim fuel r f =
      (dict_zip h <$> accepted_rows (self_fraction r1) (self_rng r1)
                        (fit_prefix lim (rows f1)),
       (if rows_fit lim (rows f1) then Exhausted else Aborted csv_Error),
       r', f')
    ∧ closed f' = closed f1
    ∧ (rows_fit lim (rows f1) = true → rows f' = [])
    ∧ (lt_one (self_fraction r1) = false → self_rng r' = self_rng r1).
Proof.
  induction fuel as [|fuel IH]; intros r f r1 f1 Hnext Hh Hc Hlen; [lia |].
  simpl. rewrite Hnext.
  destruct (read_row_known lim h r1 f1 Hh Hc)
    as (out & r' & f' & -> & Hh' & Hfr & Hcl & Hrng & Hout).
  destruct out as [x| |ex].
  - destruct Hout as (row & -> & Hacc & Hlt & Hfits).
    destruct (DictReader_next_known lim h r' f' Hh') as (r1' & Hn' & Hh1 & Hfr1 & Hg1).
    destruct (IH r' f' r1' f' Hn' Hh1 ltac:(congruence) ltac:(lia))
      as (r'' & f'' & -> & Hcl' & Hrows & Hrng').
    rewrite Hfr1, Hg1, Hfr, Hfits in *.
    eexists _, _. rewrite Hacc. simpl. split_and!; try done; try congruence.
    intros Hlt1. rewrite Hrng' by done. by apply Hrng.
  - destruct Hout as (-> & Hrows & ->). eexists _, _. by split_and!.
  - destruct Hout as (-> & -> & ->). eexists _, _. by split_and!.
Qed.

(** A fresh reader, iterated alone under one limit. *)
Lemma DictReader_iter_fresh lim fr g f fuel :
  length (rows f) < fuel →
  ∃ r' f',
    DictReader_iter lim fuel (DictReader_init fr g) f =
      (reader_records lim fr g f, reader_end lim f, r', f')
    ∧ closed f' = closed f
    ∧ (reader_end lim f = Exhausted → rows f' = [])
    ∧ (lt_one fr = false → self_rng r' = g).
Proof.
  intros Hlen. unfold reader_records, reader_end.
  destruct fuel as [|fuel]; [lia |].
  destruct (closed f) eqn:Hc.
  { simpl. unfold DictReader_next, ensure_header, fieldnames, reader_next.
    simpl. rewrite Hc. simpl. eexists _, _. by split_and!. }
  pose proof (ensure_header_fresh lim (DictReader_init fr g) f eq_refl eq_refl Hc)
    as Hfresh.
  destruct (rows f) as [|h data] eqn:Hrows.
  - destruct Hfresh as (r1 & He & _ & _ & Hg). simpl.
    unfold DictReader_next. rewrite He. unfold read_row, reader_next.
    rewrite Hc, Hrows. simpl. eexists _, _. by split_and!.
  - simpl rows_fit. destruct (row_fits lim h) eqn:Hfit.
    + destruct Hfresh as (r1 & He & Hh & Hfr & Hg). rewrite Hc in He.
      destruct (DictReader_iter_known lim h (S fuel) (DictReader_init fr g) f
                  r1 (mkFile data false))
        as (r' & f' & Hit & Hcl & Hr & Hrng); [| done | done | simpl in *; lia |].
      { unfold DictReader_next. by rewrite He. }
      simpl in *. rewrite Hfr, Hg in *. rewrite Hit.
      eexists _, _. split_and!; [done | done | | done].
      destruct (rows_fit lim data); [auto | done].
    + destruct Hfresh as (r1 & He & Hg).
      simpl. unfold DictReader_next. rewrite He. simpl. eexists _, _. by split_and!.
Qed.
(** ** The reader never closes the stream *)

Lemma reader_next_closed lim r f : closed (reader_next lim r f).2 = closed f.
Proof.
  unfold reader_next. destruct (closed f) eqn:Hc; [done |].
  destruct (rows f); [done |]. by destruct (row_fits lim _).
Qed.

Lemma fieldnames_closed lim r f : closed (fieldnames lim r f).2 = closed f.
Proof.
  unfold fieldnames. destruct (_fieldnames r); [done |].
  pose proof (reader_next_closed lim r f) as H.
  by destruct (reader_next lim r f) as [[[hd| |e] r1] f1].
Qed.

Lemma ensure_header_closed lim r f : closed (ensure_header lim r f).2 = closed f.
Proof.
  unfold ensure_header. destruct (line_num r =? 0)%nat; [| done].
  pose proof (fieldnames_closed lim r f) as H.
  by destruct (fieldnames lim r f) as [[[o|e] r1] f1].
Qed.

Lemma read_row_closed lim r f : closed (read_row lim r f).2 = closed f.
Proof.
  unfold read_row. pose proof (reader_next_closed lim r f) as H.
  destruct (reader_next lim r f) as [[[row| |e] r2] f2]; simpl in *; try done.
  destruct (if lt_one _ then _ else _) as [[[[row'| |e] rest] g] n];
    simpl; try done.
  match goal with
  | |- context [fieldnames lim ?r3 ?f3] =>
      pose proof (fieldnames_closed lim r3 f3) as Hf;
      destruct (fieldnames lim r3 f3) as [[[[hd|]|e] r4] f4]
  end; simpl in *; congruence.
Qed.

Lemma DictReader_next_closed lim r f :
  closed (DictReader_next lim r f).2 = closed f.
Proof.
  unfold DictReader_next. pose proof (ensure_header_closed lim r f) as He.
  destruct (ensure_header lim r f) as [[[[]|e] r1] f1]; simpl in *; [| done].
  by rewrite read_row_closed.
Qed.

(** ** The loop body over a list of records *)

Lemma run_body_elem cfg p : ∀ xs en,
  p ∈ (run_body cfg xs en).1 → ∃ x, x ∈ xs ∧ process_record cfg x = Ok p.
Proof.
  induction xs as [|x xs IH]; intros en; simpl; [by intros ?%elem_of_nil |].
  destruct (process_record cfg x) as [q|ex] eqn:Hp; [| by intros ?%elem_of_nil].
  specialize (IH en). destruct (run_body cfg xs en) as [ys e']. simpl in *.
  intros [->|Hin]%elem_of_cons.
  - exists x. split; [left | done].
  - destruct (IH Hin) as (x' & ? & ?). exists x'. split; [by right | done].
Qed.

Lemma run_body_prefix cfg : ∀ xs en,
  ∃ pre post, xs = pre ++ post
    ∧ Forall2 (λ x p, process_record cfg x = Ok p) pre (run_body cfg xs en).1.
Proof.
  induction xs as [|x xs IH]; intros en; simpl.
  { exists [], []. split; [done | constructor]. }
  destruct (process_record cfg x) as [q|ex] eqn:Hp.
  - destruct (IH en) as (pre & post & -> & HF).
    destruct (run_body cfg (pre ++ post) en) as [ys e']. simpl in *.
    exists (x :: pre), post. split; [done | by constructor].
  - exists [], (x :: xs). split; [done | constructor].
Qed.

Lemma run_body_abort cfg pre : ∀ ps x post ex en,
  Forall2 (λ x p, process_record cfg x = Ok p) pre ps →
  process_record cfg x = Raise ex →
  run_body cfg (pre ++ x :: post) en = (ps, Aborted ex).
Proof.
  induction pre as [|x0 pre IH]; intros ps x post ex en HF Hx.
  - apply Forall2_nil_inv_l in HF as ->. simpl. by rewrite Hx.
  - apply Forall2_cons_inv_l in HF as (p & ps' & Hp & HF & ->).
    simpl. rewrite Hp. by rewrite (IH ps' x post ex en HF Hx).
Qed.

Lemma run_body_ending cfg : ∀ xs en,
  en ≠ OutOfFuel → (run_body cfg xs en).2 ≠ OutOfFuel.
Proof.
  induction xs as [|x xs IH]; intros en Hen; simpl; [done |].
  destruct (process_record cfg x); [| done].
  specialize (IH en Hen). by destruct (run_body cfg xs en).
Qed.

Lemma run_body_all_ok cfg xs : ∀ ps en,
  Forall2 (λ x p, process_record cfg x = Ok p) xs ps →
  run_body cfg xs en = (ps, en).
Proof.
  induction xs as [|x xs IH]; intros ps en HF.
  - by apply Forall2_nil_inv_l in HF as ->.
  - apply Forall2_cons_inv_l in HF as (p & ps' & Hp & HF & ->).
    simpl. rewrite Hp. by rewrite (IH ps' en HF).
Qed.

Lemma run_body_length cfg : ∀ xs en, length (run_body cfg xs en).1 ≤ length xs.
Proof.
  induction xs as [|x xs IH]; intros en; simpl; [done |].
  destruct (process_record cfg x); simpl; [| lia].
  specialize (IH en). destruct (run_body cfg xs en). simpl in *. lia.
Qed.

(** ** The generator against the reader *)

(** Entering the generator is the installation of the limit, if any, and
    then its first turn of the loop. *)
Lemma consume_created cfg fuel w :
  consume cfg (S fuel) Created w =
  match field_size_limit cfg with
  | Some l =>
      if in_long l then
        consume cfg (S fuel)
          (Suspended (csv_field_size_limit w)
             (DictReader_init (fraction cfg) (Random (seed cfg) w)))
          (set_limit l w)
      else ([], Aborted OverflowError, Finished, w)
  | None =>
      consume cfg (S fuel)
        (Suspended (csv_field_size_limit w)
           (DictReader_init (fraction cfg) (Random (seed cfg) w)))
        w
  end.
Proof.
  simpl. unfold csv_set_field_size_limit.
  destruct (field_size_limit cfg) as [l|]; [| done].
  destruct (in_long l); [| done]. by destruct (seed cfg).
Qed.

(** What is yielded, and how the session ends, is the loop body run over
    the records of the reader. *)
Lemma consume_run_body cfg : ∀ fuel saved r w,
  ((consume cfg fuel (Suspended saved r) w).1.1.1,
   (consume cfg fuel (Suspended saved r) w).1.1.2) =
  run_body cfg
    (DictReader_iter (csv_field_size_limit w) fuel r (buffer w)).1.1.1
    (restored saved
       (DictReader_iter (csv_field_size_limit w) fuel r (buffer w)).1.1.2).
Proof.
  induction fuel as [|fuel IH]; intros saved r w; [done |].
  simpl. unfold loop_step.
  destruct (DictReader_next (csv_field_size_limit w) r (buffer w))
    as [[[x| |ex] r'] f']; simpl.
  - destruct (process_record cfg x) as [xy|ex] eqn:Hp.
    + specialize (IH saved r' (set_buffer f' w)). simpl in IH.
      destruct (consume cfg fuel _ _) as [[[ys e'] g'] w'].
      destruct (DictReader_iter _ fuel r' f') as [[[xs e] r''] f''].
      simpl in *. rewrite Hp. by rewrite <- IH.
    + destruct (DictReader_iter _ fuel r' f') as [[[xs e] r''] f''].
      simpl. by rewrite Hp.
  - unfold csv_set_field_size_limit. by destruct (in_long saved).
  - done.
Qed.

(** What a session leaves behind, by the way it ends. *)
Lemma consume_world cfg : ∀ fuel saved r w ys en gs w',
  consume cfg fuel (Suspended saved r) w = (ys, en, gs, w') →
  os_entropy w' = os_entropy w ∧
  match en with
  | Exhausted =>
      gs = Finished ∧ csv_field_size_limit w' = saved
      ∧ closed (buffer w') = true
  | Aborted _ =>
      gs = Finished ∧ csv_field_size_limit w' = csv_field_size_limit w
      ∧ (in_long saved = true → closed (buffer w') = closed (buffer w))
  | OutOfFuel => True
  end.
Proof.
  induction fuel as [|fuel IH]; intros saved r w ys en gs w';
    [by intros [= <- <- <- <-] |].
  simpl. unfold loop_step.
  pose proof (DictReader_next_closed (csv_field_size_limit w) r (buffer w)) as Hn.
  destruct (DictReader_next (csv_field_size_limit w) r (buffer w))
    as [[[x| |ex] r'] f']; simpl in Hn.
  - destruct (process_record cfg x) as [xy|ex];
      [| by intros [= <- <- <- <-]].
    destruct (consume cfg fuel _ _) as [[[ys1 e1] g1] w1] eqn:Hc.
    intros [= <- <- <- <-]. apply IH in Hc. simpl in Hc.
    destruct Hc as [Hent Hc]. split; [done |].
    destruct e1; [done | | done].
    destruct Hc as (? & ? & Hcl). split_and!; [done | done |].
    intros Hs. by rewrite Hcl.
  - unfold csv_set_field_size_limit. destruct (in_long saved) eqn:Hs;
      intros [= <- <- <- <-]; simpl; by split_and!.
  - by intros [= <- <- <- <-].
Qed.

(** ** Whole sessions *)

(** The reader of a session that could install its limit. *)
Lemma session_desc cfg w lim :
  session_limit cfg w = Some lim →
  session_records cfg w =
    reader_records lim (fraction cfg) (Random (seed cfg) w) (buffer w)
  ∧ session_end cfg w =
      restored (csv_field_size_limit w) (reader_end lim (buffer w)).
Proof.
  intros Hl. unfold session_records, session_end. rewrite Hl.
  destruct (DictReader_iter_fresh lim (fraction cfg) (Random (seed cfg) w)
              (buffer w) (S (length (rows (buffer w)))))
    as (r' & f' & -> & _); [lia |]. done.
Qed.

Lemma session_overflow cfg w :
  session_limit cfg w = None →
  session_records cfg w = [] ∧ session_end cfg w = Aborted OverflowError.
Proof. intros Hl. unfold session_records, session_end. by rewrite Hl. Qed.

Lemma session_end_ending cfg w : session_end cfg w ≠ OutOfFuel.
Proof.
  destruct (session_limit cfg w) as [lim|] eqn:Hl.
  - destruct (session_desc cfg w lim Hl) as [_ ->].
    unfold reader_end, restored.
    destruct (closed _); [done |]. destruct (rows_fit _ _); [| done].
    by destruct (in_long _).
  - by destruct (session_overflow cfg w Hl) as [_ ->].
Qed.

(** The records of a session come from a subsequence of its data rows. *)
Lemma session_records_sublist cfg w :
  match rows (buffer w) with
  | [] => session_records cfg w = []
  | h :: data =>
      ∃ sub, sub `sublist_of` data ∧ session_records cfg w = dict_zip h <$> sub
  end.
Proof.
  destruct (session_limit cfg w) as [lim|] eqn:Hl.
  - destruct (session_desc cfg w lim Hl) as [-> _]. unfold reader_records.
    destruct (closed (buffer w)).
    { destruct (rows (buffer w)); [done |]. exists []. split; [apply sublist_nil_l | done]. }
    destruct (rows (buffer w)) as [|h data]; [done |].
    destruct (row_fits lim h).
    + eexists. split; [| done].
      etrans; [apply accepted_rows_sublist | apply fit_prefix_sublist].
    + exists []. split; [apply sublist_nil_l | done].
  - destruct (session_overflow cfg w Hl) as [-> _].
    destruct (rows (buffer w)); [done |]. exists []. split; [apply sublist_nil_l | done].
Qed.

Lemma iter_csv_run_body cfg w :
  ((iter_csv cfg w).1.1.1, (iter_csv cfg w).1.1.2) =
  run_body cfg (session_records cfg w) (session_end cfg w).
Proof.
  unfold iter_csv. rewrite consume_created.
  unfold session_records, session_end, session_limit.
  destruct (field_size_limit cfg) as [l|].
  - destruct (in_long l); [| done]. by rewrite consume_run_body.
  - by rewrite consume_run_body.
Qed.

Lemma iter_csv_world cfg w ys en gs w' :
  iter_csv cfg w = (ys, en, gs, w') →
  gs = Finished ∧
  match en with
  | Exhausted =>
      csv_field_size_limit w' = csv_field_size_limit w
      ∧ closed (buffer w') = true
  | Aborted _ =>
      csv_field_size_limit w' =
        default (csv_field_size_limit w) (session_limit cfg w)
      ∧ (in_long (csv_field_size_limit w) = true →
         closed (buffer w') = closed (buffer w))
  | OutOfFuel => False
  end.
Proof.
  intros Hrun. pose proof (iter_csv_run_body cfg w) as Hb.
  pose proof (run_body_ending cfg (session_records cfg w) (session_end cfg w)
                (session_end_ending cfg w)) as Hne.
  rewrite Hrun in Hb. simpl in Hb. rewrite <- Hb in Hne. simpl in Hne.
  unfold iter_csv in Hrun. rewrite consume_created in Hrun.
  unfold session_limit.
  destruct (field_size_limit cfg) as [l|].
  - destruct (in_long l) eqn:Hl.
    + apply consume_world in Hrun as [_ Hw]. simpl in *.
      destruct en as [|ex|]; [| | done].
      * by destruct Hw as (? & ? & ?).
      * by destruct Hw as (? & ? & ?).
    + injection Hrun as <- <- <- <-. done.
  - apply consume_world in Hrun as [_ Hw]. simpl in *.
    destruct en as [|ex|]; [| | done].
    + by destruct Hw as (? & ? & ?).
    + by destruct Hw as (? & ? & ?).
Qed.
(** ** The stages of the loop body *)

Lemma del_fields_app l1 : ∀ l2 x,
  del_fields (l1 ++ l2) x = do x' <- del_fields l1 x; del_fields l2 x'.
Proof.
  induction l1 as [|i l1 IH]; intros l2 x; simpl; [done |].
  destruct (delitem i x); simpl; [apply IH | done].
Qed.

Lemma del_fields_Raise l : ∀ x e, del_fields l x = Raise e → is_KeyError e.
Proof.
  induction l as [|i l IH]; intros x e; simpl; [done |].
  unfold delitem. destruct (x !! i); simpl; [apply IH |].
  by intros [= <-].
Qed.

Lemma del_fields_Ok l : ∀ x x',
  del_fields l x = Ok x' →
  (∀ n, n ∈ l → x' !! n = None)
  ∧ (∀ k, k ∉ l → x' !! k = x !! k)
  ∧ (∀ k v, x' !! k = Some v → x !! k = Some v).
Proof.
  induction l as [|i l IH]; intros x x'; simpl.
  { intros [= <-]. split_and!; [by intros n ?%elem_of_nil | done | done]. }
  unfold delitem. destruct (x !! i) as [vi|] eqn:Hi; simpl; [| done].
  intros H. apply IH in H as (H1 & H2 & H3). split_and!.
  - intros n [->|Hn]%elem_of_cons; [| by apply H1].
    destruct (x' !! i) as [v|] eqn:Hx'; [| done].
    apply H3 in Hx'. by rewrite lookup_delete_eq in Hx'.
  - intros k [Hk1 Hk2]%not_elem_of_cons. rewrite H2 by done.
    by apply lookup_delete_ne.
  - intros k v Hk. apply H3 in Hk.
    apply lookup_delete_Some in Hk. by destruct Hk.
Qed.

Lemma drop_stage_Some l x : drop_stage (Some l) x = del_fields l x.
Proof. by destruct l. Qed.

Lemma drop_stage_Raise d x e : drop_stage d x = Raise e → is_KeyError e.
Proof.
  destruct d as [l|]; [| done]. rewrite drop_stage_Some. apply del_fields_Raise.
Qed.

Lemma apply_converters_table c : ∀ x,
  apply_converters c x = apply_table (λ t : converter, t) c x.
Proof.
  induction c as [|[i t] c IH]; intros x; simpl; [done |].
  destruct (getitem i x) as [v|]; simpl; [| done].
  destruct (t v); simpl; [apply IH | done].
Qed.

Lemma apply_parse_dates_table p : ∀ x,
  apply_parse_dates p x = apply_table parse_date p x.
Proof.
  induction p as [|[i fmt] p IH]; intros x; simpl; [done |].
  destruct (getitem i x) as [v|]; simpl; [| done].
  destruct (parse_date fmt v); simpl; [apply IH | done].
Qed.

Section Table.
Context {A : Type} (call : A → value → result value).

Lemma apply_table_app t1 : ∀ t2 x,
  apply_table call (t1 ++ t2) x =
  do x' <- apply_table call t1 x; apply_table call t2 x'.
Proof.
  induction t1 as [|[i a] t1 IH]; intros t2 x; simpl; [done |].
  destruct (getitem i x) as [v|]; simpl; [| done].
  destruct (call a v); simpl; [apply IH | done].
Qed.

(** A table loop fails with the KeyError of a lookup or with what a call
    raised. *)
Lemma apply_table_Raise tbl : ∀ x e,
  apply_table call tbl x = Raise e →
  is_KeyError e ∨ ∃ i a v, (i, a) ∈ tbl ∧ call a v = Raise e.
Proof.
  induction tbl as [|[i a] tbl IH]; intros x e; simpl; [done |].
  unfold getitem. destruct (x !! i) as [v|]; simpl;
    [| intros [= <-]; by left].
  destruct (call a v) as [v'|e'] eqn:Hc; simpl.
  - intros [?|(j & b & u & ? & ?)]%IH; [by left | right].
    exists j, b, u. split; [by right | done].
  - intros [= <-]. right. exists i, a, v. split; [left | done].
Qed.

(** A table loop that succeeds found every key of the table in the record,
    and leaves the record with the same keys. *)
Lemma apply_table_Ok tbl : ∀ x x',
  apply_table call tbl x = Ok x' →
  (∀ i, i ∈ tbl.*1 → is_Some (x !! i))
  ∧ (∀ k, x' !! k = None ↔ x !! k = None)
  ∧ (∀ k, k ∉ tbl.*1 → x' !! k = x !! k).
Proof.
  induction tbl as [|[i a] tbl IH]; intros x x'; simpl.
  { intros [= <-]. split_and!; [by intros i ?%elem_of_nil | done | done]. }
  unfold getitem. destruct (x !! i) as [v|] eqn:Hi; simpl; [| done].
  destruct (call a v) as [v'|]; simpl; [| done].
  intros H. apply IH in H as (H1 & H2 & H3).
  assert (Hdom : ∀ k, <[i:=v']> x !! k = None ↔ x !! k = None).
  { intros k. destruct (decide (i = k)) as [->|Hne].
    - rewrite lookup_insert_eq, Hi. by split.
    - by rewrite lookup_insert_ne. }
  split_and!.
  - intros j [->|Hj]%elem_of_cons; [by rewrite Hi |].
    apply H1 in Hj. rewrite <- not_eq_None_Some in *. by rewrite <- Hdom.
  - intros k. by rewrite H2.
  - intros k [Hk1 Hk2]%not_elem_of_cons. simpl in Hk1.
    rewrite H3 by done. by rewrite lookup_insert_ne.
Qed.

(** With distinct keys, the entry for [k] is called once, on the value the
    record had for [k] when the loop began. *)
Lemma apply_table_lookup tbl : ∀ x x' k a,
  NoDup tbl.*1 → (k, a) ∈ tbl →
  apply_table call tbl x = Ok x' →
  ∃ v v', x !! k = Some v ∧ call a v = Ok v' ∧ x' !! k = Some v'.
Proof.
  induction tbl as [|[i b] tbl IH]; intros x x' k a Hnd Hin; simpl;
    [by apply elem_of_nil in Hin |].
  apply NoDup_cons in Hnd as [Hi Hnd]. simpl in Hi.
  unfold getitem. destruct (x !! i) as [v|] eqn:Hxi; simpl; [| done].
  destruct (call b v) as [v'|] eqn:Hc; simpl; [| done].
  intros H. apply elem_of_cons in Hin as [[= -> ->]|Hin].
  - exists v, v'. split_and!; [done | done |].
    apply apply_table_Ok in H as (_ & _ & H3).
    rewrite H3 by done. apply lookup_insert_eq.
  - assert (k ≠ i) as Hne.
    { intros ->. apply Hi. by apply (list_elem_of_fmap_2 fst _ (i, a)). }
    destruct (IH _ _ k a Hnd Hin H) as (u & u' & Hu & ? & ?).
    rewrite lookup_insert_ne in Hu by done. eauto.
Qed.

End Table.

(** ** [dict(zip(header, row))] *)

Section DictZip.

Let ins := λ (m : gmap string value) (p : string * string), <[p.1 := VStr p.2]> m.

Lemma zip_acc_notin h : ∀ (row : list string) m k,
  k ∉ take (length row) h → foldl ins m (zip h row) !! k = m !! k.
Proof.
  induction h as [|a h IH]; intros [|b row] m k; simpl; try done.
  intros [Hk1 Hk2]%not_elem_of_cons. rewrite IH by done.
  unfold ins; simpl. by rewrite lookup_insert_ne.
Qed.

Lemma zip_acc_value h : ∀ (row : list string) m k v,
  foldl ins m (zip h row) !! k = Some v →
  m !! k = Some v ∨ ∃ s, v = VStr s ∧ s ∈ row.
Proof.
  induction h as [|a h IH]; intros [|b row] m k v; simpl; try by left.
  intros [Hm|(s & -> & Hs)]%IH.
  - unfold ins in Hm; simpl in Hm.
    apply lookup_insert_Some in Hm as [[<- <-]|[? ?]]; [right | by left].
    exists b. split; [done | left].
  - right. exists s. split; [done | by right].
Qed.

Lemma zip_acc_dom h : ∀ (row : list string) m,
  dom (foldl ins m (zip h row)) = dom m ∪ list_to_set (take (length row) h).
Proof.
  induction h as [|a h IH]; intros [|b row] m; simpl;
    rewrite ?take_nil; simpl; try by rewrite (right_id_L ∅ (∪)).
  rewrite IH. unfold ins; simpl. rewrite dom_insert_L.
  by rewrite (comm_L (∪) {[a]} (dom m)), (assoc_L (∪)).
Qed.

Lemma zip_acc_nodup h : ∀ (row : list string) m i nm s,
  NoDup h → h !! i = Some nm → row !! i = Some s →
  foldl ins m (zip h row) !! nm = Some (VStr s).
Proof.
  induction h as [|a h IH]; intros [|b row] m i nm s Hnd Hh Hr; try done.
  apply NoDup_cons in Hnd as [Ha Hnd]. destruct i as [|i]; simpl in *.
  - injection Hh as ->. injection Hr as ->.
    rewrite zip_acc_notin.
    + unfold ins; simpl. apply lookup_insert_eq.
    + intros Hin. apply Ha. eapply elem_of_sublist; [done | apply sublist_take].
  - by eapply IH.
Qed.

Lemma dict_zip_dom h (row : list string) :
  dom (dict_zip h row) = list_to_set (take (length row) h).
Proof.
  unfold dict_zip. fold ins. by rewrite zip_acc_dom, dom_empty_L, (left_id_L ∅ (∪)).
Qed.

Lemma dict_zip_lookup h (row : list string) i nm :
  NoDup h → h !! i = Some nm → dict_zip h row !! nm = VStr <$> row !! i.
Proof.
  intros Hnd Hh. unfold dict_zip. fold ins.
  destruct (row !! i) as [s|] eqn:Hr; simpl.
  - by eapply zip_acc_nodup.
  - rewrite zip_acc_notin; [done |].
    intros (j & Hj)%list_elem_of_lookup.
    apply lookup_take_Some in Hj as [Hj Hlt].
    apply lookup_ge_None in Hr.
    pose proof (NoDup_lookup _ _ _ _ Hnd Hh Hj). lia.
Qed.

Lemma dict_zip_str h (row : list string) k v :
  dict_zip h row !! k = Some v → ∃ s, v = VStr s ∧ s ∈ row.
Proof.
  unfold dict_zip. fold ins. intros [Hm|?]%zip_acc_value; [done | done].
Qed.

End DictZip.

Lemma drop_stage_Ok d x x' :
  drop_stage d x = Ok x' →
  (∀ l n, d = Some l → n ∈ l → x' !! n = None)
  ∧ (∀ k v, x' !! k = Some v → x !! k = Some v).
Proof.
  destruct d as [l|].
  - rewrite drop_stage_Some. intros (H1 & _ & H3)%del_fields_Ok.
    split; [| done]. intros l' n [= <-]. apply H1.
  - intros [= <-]. split; [done | done].
Qed.

Lemma convert_stage_table c x :
  convert_stage c x =
  match c with
  | Some c => apply_table (λ t : converter, t) c x
  | None => Ok x
  end.
Proof. destruct c; [apply apply_converters_table | done]. Qed.

Lemma parse_stage_table p x :
  parse_stage p x =
  match p with
  | Some p => apply_table parse_date p x
  | None => Ok x
  end.
Proof. destruct p; [apply apply_parse_dates_table | done]. Qed.

(** Every yielded pair is the loop body's result on some data row of the
    stream paired with the header. *)
Lemma yield_origin cfg w p :
  p ∈ (iter_csv cfg w).1.1.1 →
  ∃ h data row, rows (buffer w) = h :: data ∧ row ∈ data
    ∧ process_record cfg (dict_zip h row) = Ok p.
Proof.
  intros Hin. pose proof (iter_csv_run_body cfg w) as Hb.
  assert (p ∈ (run_body cfg (session_records cfg w) (session_end cfg w)).1) as Hp
    by (by rewrite <- Hb).
  apply run_body_elem in Hp as (x & Hx & Hpx).
  pose proof (session_records_sublist cfg w) as Hdesc.
  destruct (rows (buffer w)) as [|h data].
  - rewrite Hdesc in Hx. by apply elem_of_nil in Hx.
  - destruct Hdesc as (sub & Hsub & Hrec). rewrite Hrec in Hx.
    apply list_elem_of_fmap in Hx as (row & -> & Hrow).
    exists h, data, row. split_and!; [done | | done].
    by eapply elem_of_sublist.
Qed.

(** A table loop fails at the first entry, in table order, whose key the
    record lacks or whose call raises. *)
Lemma apply_table_Raise_inv {A} (call : A → value → result value) tbl : ∀ x e,
  apply_table call tbl x = Raise e →
  ∃ t1 i a t2 x',
    tbl = t1 ++ (i, a) :: t2 ∧ apply_table call t1 x = Ok x'
    ∧ ((x' !! i = None ∧ e = KeyError i)
       ∨ ∃ u, x' !! i = Some u ∧ call a u = Raise e).
Proof.
  induction tbl as [|[i a] tbl IH]; intros x e; simpl; [done |].
  unfold getitem. destruct (x !! i) as [u|] eqn:Hi; simpl.
  - destruct (call a u) as [u'|e'] eqn:Hc; simpl.
    + intros (t1 & j & b & t2 & x' & -> & Ht1 & Hj)%IH.
      exists ((i, a) :: t1), j, b, t2, x'. split_and!; [done | | done].
      simpl. unfold getitem. rewrite Hi. simpl. by rewrite Hc.
    + intros [= <-]. exists [], i, a, tbl, x. split_and!; [done | done |].
      right. by exists u.
  - intros [= <-]. exists [], i, a, tbl, x. split_and!; [done | done |].
    by left.
Qed.

(** A failing stage is what the loop body raises. *)
Lemma stage_failure_raises cfg x e :
  stage_failure cfg x e → process_record cfg x = Raise e.
Proof.
  unfold process_record, transform.
  intros [l1 n l2 x' Hd Hl1 Hn
         |c1 i t c2 x1 x2 v e' H1 Hc Hc1 Hi Ht
         |p1 i fmt p2 x1 x2 x3 v e' H1 H2 Hp Hp1 Hi Hf].
  - rewrite Hd, drop_stage_Some, del_fields_app, Hl1. simpl.
    unfold delitem. by rewrite Hn.
  - rewrite H1. simpl. rewrite Hc. simpl.
    rewrite apply_converters_table in *. rewrite apply_table_app, Hc1. simpl.
    unfold getitem. rewrite Hi. simpl. by rewrite Ht.
  - rewrite H1. simpl. rewrite H2. simpl. rewrite Hp. simpl.
    rewrite apply_parse_dates_table in *. rewrite apply_table_app, Hp1. simpl.
    unfold getitem. rewrite Hi. simpl. by rewrite Hf.
Qed.

(** The drop loop fails exactly at the first name, in list order, that the
    record does not have (any more) when its turn comes. *)
Lemma del_fields_Raise_inv l : ∀ x e,
  del_fields l x = Raise e →
  ∃ l1 n l2 x', l = l1 ++ n :: l2 ∧ del_fields l1 x = Ok x'
    ∧ x' !! n = None ∧ e = KeyError n.
Proof.
  induction l as [|i l IH]; intros x e; simpl; [done |].
  unfold delitem. destruct (x !! i) as [v|] eqn:Hi; simpl.
  - intros (l1 & n & l2 & x' & -> & H1 & Hn & ->)%IH.
    exists (i :: l1), n, l2, x'. split_and!; try done.
    simpl. unfold delitem. by rewrite Hi.
  - intros [= <-]. by exists [], i, l, x.
Qed.

(** When the loop body raises, a stage failed at its turn on the record, or
    a table loop did not find its field. *)
Lemma process_record_Raise_inv cfg x e :
  process_record cfg x = Raise e →
  (∃ i, e = KeyError i ∧ missing_field cfg x i) ∨ stage_failure cfg x e.
Proof.
  unfold process_record, transform. intros Hp.
  destruct (drop_stage (drop cfg) x) as [x1|e1] eqn:H1; simpl in Hp.
  2:{ injection Hp as <-. right.
      destruct (drop cfg) as [l|] eqn:Hd; [| done].
      rewrite drop_stage_Some in H1.
      apply del_fields_Raise_inv
        in H1 as (l1 & n & l2 & x' & -> & Hl1 & Hn & ->).
      by eapply drop_missing. }
  destruct (convert_stage (converters cfg) x1) as [x2|e2] eqn:H2; simpl in Hp.
  - destruct (parse_stage (parse_dates cfg) x2) as [x3|e3] eqn:H3;
      simpl in Hp; [done |].
    injection Hp as <-. pose proof H3 as H3'. rewrite parse_stage_table in H3'.
    destruct (parse_dates cfg) as [p|] eqn:Hpd; [| done].
    apply apply_table_Raise_inv
      in H3' as (p1 & i & fmt & p2 & x' & -> & Hp1 & [[Hi ->]|(u & Hu & Hf)]).
    + left. exists i. split; [done |].
      eapply date_field_missing; try done. by rewrite apply_parse_dates_table.
    + right. eapply date_parse_raises; try done.
      by rewrite apply_parse_dates_table.
  - injection Hp as <-. pose proof H2 as H2'. rewrite convert_stage_table in H2'.
    destruct (converters cfg) as [c|] eqn:Hc; [| done].
    apply apply_table_Raise_inv
      in H2' as (c1 & i & t & c2 & x' & -> & Hc1 & [[Hi ->]|(u & Hu & Hf)]).
    + left. exists i. split; [done |].
      eapply converter_field_missing; try done.
      by rewrite apply_converters_table.
    + right. eapply converter_raises; try done.
      by rewrite apply_converters_table.
Qed.

Lemma del_fields_Ok_present l : ∀ x x' n,
  del_fields l x = Ok x' → n ∈ l → is_Some (x !! n).
Proof.
  induction l as [|i l IH]; intros x x' n; simpl; [by intros _ ?%elem_of_nil |].
  unfold delitem. destruct (x !! i) as [v|] eqn:Hi; simpl; [| done].
  intros H [->|Hn]%elem_of_cons; [by rewrite Hi |].
  destruct (IH _ _ n H Hn) as [u Hu].
  apply lookup_delete_Some in Hu as [_ Hu]. by exists u.
Qed.

(** A name of the drop list that the record lacks makes the drop stage
    fail. *)
Lemma absent_drop_name_fails cfg x l n :
  drop cfg = Some l → n ∈ l → x !! n = None →
  ∃ m, stage_failure cfg x (KeyError m).
Proof.
  intros Hd Hn Hx. destruct (del_fields l x) as [x'|e] eqn:Hdel.
  - destruct (del_fields_Ok_present l x x' n Hdel Hn) as [v Hv]. congruence.
  - apply del_fields_Raise_inv in Hdel as (l1 & m & l2 & x' & -> & H1 & Hm & ->).
    exists m. by eapply drop_missing.
Qed.

(** ** Header names that repeat *)

Section DictZipLast.

Let ins := λ (m : gmap string value) (p : string * string), <[p.1 := VStr p.2]> m.

Lemma zip_acc_last h : ∀ (row : list string) m i nm s,
  h !! i = Some nm → row !! i = Some s →
  (∀ j, i < j → j < length row → h !! j ≠ Some nm) →
  foldl ins m (zip h row) !! nm = Some (VStr s).
Proof.
  induction h as [|a h IH]; intros [|b row] m i nm s Hh Hr Hlast; try done.
  destruct i as [|i]; simpl in *.
  - injection Hh as ->. injection Hr as ->.
    pose proof (zip_acc_notin h row (ins m (nm, s)) nm) as Hnot.
    fold ins in Hnot. rewrite Hnot.
    + unfold ins; simpl. apply lookup_insert_eq.
    + intros (j & Hj)%list_elem_of_lookup.
      apply lookup_take_Some in Hj as [Hj Hlt].
      apply (Hlast (S j)); [lia | lia | done].
  - apply (IH row _ i); [done | done |].
    intros j Hij Hj. apply (Hlast (S j)); lia.
Qed.

(** X7. When a name occurs more than once in the header, the record holds
    under that name the value of the last of its columns that the row
    reaches. *)
Theorem last_column_wins h (row : list string) i nm s :
  h !! i = Some nm → row !! i = Some s →
  (∀ j, i < j → j < length row → h !! j ≠ Some nm) →
  dict_zip h row !! nm = Some (VStr s).
Proof. intros Hh Hr Hlast. unfold dict_zip. by eapply zip_acc_last. Qed.

End DictZipLast.

(** [dict(zip(header, row))] maps the header names to the values of the
    row. *)
Lemma dict_zip_zipped h (row : list string) : zipped h row (dict_zip h row).
Proof.
  split; [apply dict_zip_dom |].
  intros i nm s Hh Hr Hlast. unfold dict_zip.
  by eapply (zip_acc_last h row ∅ i nm s).
Qed.

(** ** What a successful loop body went through *)

Lemma process_record_Ok_inv cfg x feat y :
  process_record cfg x = Ok (feat, y) →
  ∃ x1 x2 x3,
    drop_stage (drop cfg) x = Ok x1
    ∧ convert_stage (converters cfg) x1 = Ok x2
    ∧ parse_stage (parse_dates cfg) x2 = Ok x3
    ∧ pop (target_name cfg) x3 = (feat, y).
Proof.
  unfold process_record, transform. intros Hp.
  destruct (drop_stage _ _) as [x1|] eqn:H1; simpl in Hp; [| done].
  destruct (convert_stage _ x1) as [x2|] eqn:H2; simpl in Hp; [| done].
  destruct (parse_stage _ x2) as [x3|] eqn:H3; simpl in Hp; [| done].
  injection Hp as Hpop. by exists x1, x2, x3.
Qed.

Lemma convert_stage_Ok c x x' :
  convert_stage c x = Ok x' →
  (∀ k, x' !! k = None ↔ x !! k = None)
  ∧ (∀ k, k ∉ keys c → x' !! k = x !! k).
Proof.
  rewrite convert_stage_table. destruct c as [c|]; simpl.
  - intros (_ & H2 & H3)%apply_table_Ok. done.
  - by intros [= <-].
Qed.

Lemma parse_stage_Ok p x x' :
  parse_stage p x = Ok x' →
  (∀ k, x' !! k = None ↔ x !! k = None)
  ∧ (∀ k, k ∉ keys p → x' !! k = x !! k).
Proof.
  rewrite parse_stage_table. destruct p as [p|]; simpl.
  - intros (_ & H2 & H3)%apply_table_Ok. done.
  - by intros [= <-].
Qed.

Lemma pop_lookup k x feat y :
  pop k x = (feat, y) →
  (∀ j, x !! j = None → feat !! j = None)
  ∧ (∀ j u, feat !! j = Some u → x !! j = Some u)
  ∧ (∀ j, k = Some j → feat !! j = None ∧ y = default VNone (x !! j)).
Proof.
  destruct k as [k|]; simpl.
  - destruct (x !! k) as [u0|] eqn:Hk; intros [= <- <-]; split_and!.
    + intros j Hj. destruct (decide (k = j)) as [->|];
        [apply lookup_delete_eq | by rewrite lookup_delete_ne].
    + intros j u Hj. apply lookup_delete_Some in Hj. by destruct Hj.
    + intros j [= ->]. rewrite Hk. split; [apply lookup_delete_eq | done].
    + done.
    + done.
    + intros j [= ->]. by rewrite Hk.
  - intros [= <- <-]. by split_and!.
Qed.

Lemma none_iff_dom (x x' : gmap string value) :
  (∀ k, x' !! k = None ↔ x !! k = None) → dom x' = dom x.
Proof.
  intros H. apply set_eq. intros k.
  rewrite !elem_of_dom, <- !not_eq_None_Some. by rewrite H.
Qed.

Lemma del_fields_dom l : ∀ x x',
  del_fields l x = Ok x' → dom x' = dom x ∖ list_to_set l.
Proof.
  induction l as [|i l IH]; intros x x'; simpl.
  { intros [= <-]. by rewrite difference_empty_L. }
  unfold delitem. destruct (x !! i); simpl; [| done].
  intros ->%IH. by rewrite dom_delete_L, difference_difference_l_L.
Qed.

Lemma del_fields_Ok_NoDup l : ∀ x x', del_fields l x = Ok x' → NoDup l.
Proof.
  induction l as [|i l IH]; intros x x'; simpl; [constructor |].
  unfold delitem. destruct (x !! i) eqn:Hi; simpl; [| done].
  intros H. apply NoDup_cons. split; [| by eapply IH].
  intros Hin. destruct (del_fields_Ok_present l _ _ i H Hin) as [u Hu].
  by rewrite lookup_delete_eq in Hu.
Qed.

(** When the loop body fails on every record nothing is ever yielded. *)
Lemma no_yield_when_body_fails cfg w :
  (∀ x, x ∈ session_records cfg w → ∃ e, process_record cfg x = Raise e) →
  (iter_csv cfg w).1.1.1 = [].
Proof.
  intros Hfail. destruct ((iter_csv cfg w).1.1.1) as [|p ys] eqn:Hys; [done |].
  assert (p ∈ (iter_csv cfg w).1.1.1) as Hin by (rewrite Hys; left).
  pose proof (iter_csv_run_body cfg w) as Hb.
  assert (p ∈ (run_body cfg (session_records cfg w) (session_end cfg w)).1) as Hp
    by (by rewrite <- Hb).
  apply run_body_elem in Hp as (x & Hx & Hpx).
  destruct (Hfail x Hx) as [e He]. congruence.
Qed.

Lemma assoc_Some {A} k (tbl : list (string * A)) a :
  assoc k tbl = Some a → (k, a) ∈ tbl.
Proof.
  induction tbl as [|[i b] tbl IH]; simpl; [done |].
  destruct (decide (i = k)) as [->|]; [intros [= ->]; left | right; auto].
Qed.

Lemma assoc_None {A} k (tbl : list (string * A)) :
  assoc k tbl = None → k ∉ tbl.*1.
Proof.
  induction tbl as [|[i b] tbl IH]; simpl; [intros _ ?%elem_of_nil; done |].
  destruct (decide (i = k)) as [->|Hne]; [done |].
  intros H [->|Hin]%elem_of_cons; [done | by apply IH].
Qed.

(** With distinct keys, a table loop that succeeds leaves under [k] what the
    entry of [k] returns on the value found there, or that value itself
    when the table has no entry for [k]. *)
Lemma apply_table_field {A} (call : A → value → result value) tbl x x' k u' :
  NoDup tbl.*1 →
  apply_table call tbl x = Ok x' →
  x' !! k = Some u' →
  ∃ u, x !! k = Some u
       ∧ match assoc k tbl with
         | Some a => call a u = Ok u'
         | None => u' = u
         end.
Proof.
  intros Hnd Hok Hk. destruct (assoc k tbl) as [a|] eqn:Ha.
  - apply assoc_Some in Ha.
    destruct (apply_table_lookup call tbl x x' k a Hnd Ha Hok)
      as (u & u'' & Hu & Hcall & Hu'').
    exists u. split; [done | congruence].
  - apply assoc_None in Ha. apply apply_table_Ok in Hok as (_ & _ & Hframe).
    exists u'. split; [by rewrite <- Hframe | done].
Qed.

Lemma drop_stage_frame d x x' k :
  drop_stage d x = Ok x' → k ∉ default [] d → x' !! k = x !! k.
Proof.
  destruct d as [l|].
  - rewrite drop_stage_Some. intros (_ & H2 & _)%del_fields_Ok. apply H2.
  - by intros [= <-].
Qed.

(** The two table stages, field by field. *)
Lemma tables_field_value cfg x1 x2 x3 k u' :
  NoDup (keys (converters cfg)) → NoDup (keys (parse_dates cfg)) →
  convert_stage (converters cfg) x1 = Ok x2 →
  parse_stage (parse_dates cfg) x2 = Ok x3 →
  x3 !! k = Some u' →
  ∃ u, x1 !! k = Some u ∧ field_value cfg k u = Ok u'.
Proof.
  intros Hnc Hnp H2 H3 Hk. unfold field_value.
  rewrite convert_stage_table in H2. rewrite parse_stage_table in H3.
  assert (∃ u2, x2 !! k = Some u2
            ∧ match parse_dates cfg ≫= assoc k with
              | Some fmt => parse_date fmt u2 = Ok u'
              | None => u' = u2
              end) as (u2 & Hu2 & Hparse).
  { destruct (parse_dates cfg) as [p|]; simpl in *.
    - by eapply apply_table_field.
    - injection H3 as <-. by exists u'. }
  assert (∃ u, x1 !! k = Some u
            ∧ match converters cfg ≫= assoc k with
              | Some t => t u = Ok u2
              | None => u2 = u
              end) as (u & Hu & Hconv).
  { destruct (converters cfg) as [c|]; simpl in *.
    - by eapply (apply_table_field (λ t : converter, t)).
    - injection H2 as <-. by exists u2. }
  exists u. split; [done |]. clear H2 H3 Hnc Hnp.
  destruct (converters cfg) as [c|], (parse_dates cfg) as [p|]; simpl in *;
    repeat match goal with
           | |- context [assoc k ?t] => destruct (assoc k t); simpl in *
           end;
    subst; try rewrite Hconv; simpl; done.
Qed.

(** ** The order of the stages *)

(** C1 (as amended). Every pair a session yields comes from a data row of the
    stream by the stages taken in the order drop, convert, parse-dates,
    target-split. When a converter is registered for the field named by
    [target_name], and no date format is registered for that field, the
    yielded target is that converter applied to the field's raw string. *)
Theorem target_is_converted_raw_value cfg w c k t feat y :
  converters cfg = Some c → NoDup c.*1 → (k, t) ∈ c →
  target_name cfg = Some k →
  (∀ p, parse_dates cfg = Some p → k ∉ p.*1) →
  (feat, y) ∈ (iter_csv cfg w).1.1.1 →
  ∃ h data row s x1 x2 x3,
    rows (buffer w) = h :: data ∧ row ∈ data
    ∧ drop_stage (drop cfg) (dict_zip h row) = Ok x1
    ∧ convert_stage (converters cfg) x1 = Ok x2
    ∧ parse_stage (parse_dates cfg) x2 = Ok x3
    ∧ pop (target_name cfg) x3 = (feat, y)
    ∧ dict_zip h row !! k = Some (VStr s)
    ∧ t (VStr s) = Ok y.
Proof.
  intros Hc Hnd Hkt Htn Hpd (h & data & row & Hrows & Hrow & Hp)%yield_origin.
  unfold process_record, transform in Hp.
  destruct (drop_stage _ _) as [x1|] eqn:H1; simpl in Hp; [| done].
  destruct (convert_stage _ x1) as [x2|] eqn:H2; simpl in Hp; [| done].
  destruct (parse_stage _ x2) as [x3|] eqn:H3; simpl in Hp; [| done].
  injection Hp as Hpop.
  pose proof H2 as H2'. rewrite convert_stage_table, Hc in H2'.
  destruct (apply_table_lookup _ c x1 x2 k t Hnd Hkt H2')
    as (v & v' & Hv & Htv & Hv').
  apply drop_stage_Ok in H1 as H1'. destruct H1' as [_ Hsub].
  apply Hsub in Hv. destruct (dict_zip_str _ _ _ _ Hv) as (s & -> & _).
  assert (x3 !! k = Some v') as Hx3.
  { pose proof H3 as H3'. rewrite parse_stage_table in H3'.
    destruct (parse_dates cfg) as [p|] eqn:Hp; [| by injection H3' as <-].
    apply apply_table_Ok in H3' as (_ & _ & Hframe).
    rewrite Hframe; [done | by apply Hpd]. }
  assert (y = v') as ->.
  { rewrite Htn in Hpop. unfold pop in Hpop. rewrite Hx3 in Hpop.
    by injection Hpop. }
  exists h, data, row, s, x1, x2, x3. by split_and!.
Qed.

(** C8. For every yielded pair, with [x3] the record after drop, convert and
    parse-dates: if no target name is configured or [x3] lacks that key, the
    target is [None] and the features are exactly [x3]; otherwise the target
    is the value [x3] had under that key and the features are [x3] without
    it. *)
Theorem target_split cfg w feat y :
  (feat, y) ∈ (iter_csv cfg w).1.1.1 →
  ∃ h data row x3,
    rows (buffer w) = h :: data ∧ row ∈ data
    ∧ transform cfg (dict_zip h row) = Ok x3
    ∧ ((target_name cfg = None
        ∨ ∃ k, target_name cfg = Some k ∧ x3 !! k = None) →
       y = VNone ∧ feat = x3)
    ∧ (∀ k v, target_name cfg = Some k → x3 !! k = Some v →
       y = v ∧ feat = delete k x3 ∧ feat !! k = None).
Proof.
  intros (h & data & row & Hrows & Hrow & Hp)%yield_origin.
  unfold process_record in Hp.
  destruct (transform cfg _) as [x3|] eqn:H3; simpl in Hp; [| done].
  injection Hp as Hpop. exists h, data, row, x3. split_and!; try done.
  - intros [Hn|(k & Hk & Hx)].
    + rewrite Hn in Hpop. simpl in Hpop. by injection Hpop as <- <-.
    + rewrite Hk in Hpop. simpl in Hpop. rewrite Hx in Hpop.
      by injection Hpop as <- <-.
  - intros k v Hk Hx. rewrite Hk in Hpop. simpl in Hpop. rewrite Hx in Hpop.
    injection Hpop as <- <-. split_and!; [done | done | apply lookup_delete_eq].
Qed.

(** ** Failures *)

(** C7. When a stage fails on an accepted record (the drop loop reaches a
    name the record does not have, a converter raises, or the date parser
    raises), the session yields exactly the pairs of the records before it,
    ends with that exception, and the generator is finished: pulling it
    again only signals the end and changes nothing. *)
Theorem failure_aborts_iteration cfg w pre x post ps e :
  session_records cfg w = pre ++ x :: post →
  Forall2 (λ x p, process_record cfg x = Ok p) pre ps →
  stage_failure cfg x e →
  ∃ w', iter_csv cfg w = (ps, Aborted e, Finished, w')
        ∧ iter_csv_next cfg Finished w' = (StopIteration, Finished, w').
Proof.
  intros Hrec Hpre Hfail%stage_failure_raises.
  pose proof (iter_csv_run_body cfg w) as Hb.
  rewrite Hrec, (run_body_abort cfg pre ps x post e (session_end cfg w) Hpre Hfail)
    in Hb.
  destruct (iter_csv cfg w) as [[[ys en] gs] w'] eqn:Hrun.
  simpl in Hb. injection Hb as -> ->.
  apply iter_csv_world in Hrun as [-> _]. by exists w'.
Qed.

(** A name that is both dropped and looked up by a later table makes the
    loop body raise. *)
Lemma process_record_dropped cfg x l n :
  drop cfg = Some l → n ∈ l →
  (∃ c, converters cfg = Some c ∧ n ∈ c.*1)
  ∨ (∃ p, parse_dates cfg = Some p ∧ n ∈ p.*1) →
  ∃ e, process_record cfg x = Raise e.
Proof.
  intros Hd Hn Htab.
  destruct (process_record cfg x) as [[feat y]|e] eqn:Hp; [| by exists e].
  apply process_record_Ok_inv in Hp as (x1 & x2 & x3 & H1 & H2 & H3 & _).
  apply drop_stage_Ok in H1 as [H1 _]. specialize (H1 l n Hd Hn).
  pose proof H2 as [H2n _]%convert_stage_Ok.
  rewrite convert_stage_table in H2. rewrite parse_stage_table in H3.
  destruct Htab as [(c & Hc & Hnc)|(p & Hpd & Hnp)].
  - rewrite Hc in H2. apply apply_table_Ok in H2 as (H2a & _ & _).
    apply H2a in Hnc. rewrite H1 in Hnc. by destruct Hnc.
  - rewrite Hpd in H3. apply apply_table_Ok in H3 as (H3a & _ & _).
    apply H3a in Hnp. apply H2n in H1. rewrite H1 in Hnp. by destruct Hnp.
Qed.

(** C9 (as amended). If a name is both in the drop list and a key of the
    converters (or parse_dates) table, the first accepted record is never
    yielded: the session yields nothing and ends with an exception raised
    on that record. The exception is the KeyError of a table key that the
    record does not have when the table loop reaches it, or else what a
    stage raised when its turn came on that record (the drop loop on a name
    the record lacks, a converter or the date parser on the value it is
    applied to). It is the KeyError of the dropped name itself whenever the
    drop stage and every table entry walked before that name's entry succeed
    on the record. *)
Theorem dropped_then_looked_up cfg w l n x xs :
  drop cfg = Some l → n ∈ l →
  (∃ c, converters cfg = Some c ∧ n ∈ c.*1)
  ∨ (∃ p, parse_dates cfg = Some p ∧ n ∈ p.*1) →
  session_records cfg w = x :: xs →
  ∃ e w', iter_csv cfg w = ([], Aborted e, Finished, w')
    ∧ ((∃ i, e = KeyError i ∧ missing_field cfg x i) ∨ stage_failure cfg x e)
    ∧ (∀ c1 t c2 x1 x2,
         converters cfg = Some (c1 ++ (n, t) :: c2) →
         drop_stage (drop cfg) x = Ok x1 →
         apply_converters c1 x1 = Ok x2 →
         e = KeyError n)
    ∧ (∀ p1 fmt p2 x1 x2 x3,
         parse_dates cfg = Some (p1 ++ (n, fmt) :: p2) →
         drop_stage (drop cfg) x = Ok x1 →
         convert_stage (converters cfg) x1 = Ok x2 →
         apply_parse_dates p1 x2 = Ok x3 →
         e = KeyError n).
Proof.
  intros Hd Hn Htab Hrec.
  destruct (process_record_dropped cfg x l n Hd Hn Htab) as (e & He).
  pose proof (iter_csv_run_body cfg w) as Hb.
  rewrite Hrec in Hb. simpl in Hb. rewrite He in Hb.
  destruct (iter_csv cfg w) as [[[ys en] gs] w'] eqn:Hrun.
  simpl in Hb. injection Hb as -> ->.
  apply iter_csv_world in Hrun as [-> _]. exists e, w'.
  split_and!; [done | by apply process_record_Raise_inv | |].
  - intros c1 t c2 x1 x2 Hc H1 Hc1.
    pose proof H1 as [H1n _]%drop_stage_Ok. specialize (H1n l n Hd Hn).
    pose proof Hc1 as Hc1'. rewrite apply_converters_table in Hc1'.
    apply apply_table_Ok in Hc1' as (_ & Hnone & _).
    unfold process_record, transform in He. rewrite H1 in He. simpl in He.
    rewrite Hc in He. simpl in He.
    rewrite apply_converters_table, apply_table_app in He.
    rewrite <- apply_converters_table, Hc1 in He. simpl in He.
    unfold getitem in He. rewrite (proj2 (Hnone n) H1n) in He. simpl in He.
    by injection He.
  - intros p1 fmt p2 x1 x2 x3 Hpd H1 H2 Hp1.
    pose proof H1 as [H1n _]%drop_stage_Ok. specialize (H1n l n Hd Hn).
    pose proof H2 as [H2n _]%convert_stage_Ok.
    pose proof Hp1 as Hp1'. rewrite apply_parse_dates_table in Hp1'.
    apply apply_table_Ok in Hp1' as (_ & Hnone & _).
    unfold process_record, transform in He. rewrite H1 in He. simpl in He.
    rewrite H2 in He. simpl in He. rewrite Hpd in He. simpl in He.
    rewrite apply_parse_dates_table, apply_table_app in He.
    rewrite <- apply_parse_dates_table, Hp1 in He. simpl in He.
    unfold getitem in He.
    rewrite (proj2 (Hnone n) (proj2 (H2n n) H1n)) in He. simpl in He.
    by injection He.
Qed.

(** ** Sampling *)

Lemma draw_succ j g : draw (S j) g = draw j (rng_random g).2.
Proof. done. Qed.

(** The skip loop returns the first candidate whose draw does not exceed
    the fraction, provided the rows it reads on the way fit the limit. *)
Lemma skip_loop_accept lim fr : ∀ k rest row g n row',
  (row :: rest) !! k = Some row' →
  rows_fit lim (take k rest) = true →
  (∀ j, j < k → exceeds (draw j g) fr = true) →
  exceeds (draw k g) fr = false →
  ∃ n', skip_loop lim fr row rest g n =
          (Yield row', skipn (S k) (row :: rest), rng_iter (S k) g, n').
Proof.
  induction k as [|k IH]; intros rest row g n row' Hk Hfit Hrej Hacc.
  - injection Hk as <-. unfold draw in Hacc. simpl in Hacc.
    destruct rest; simpl; destruct (rng_random g) as [u g'];
      simpl in *; rewrite Hacc; by eexists.
  - destruct rest as [|row1 rest]; [done |]. simpl in Hk.
    simpl in Hfit. apply andb_true_iff in Hfit as [Hfit1 Hfit].
    pose proof (Hrej 0 ltac:(lia)) as H0. unfold draw in H0. simpl in H0.
    destruct (IH rest row1 (rng_random g).2 (S n) row' Hk Hfit) as (n' & Hs).
    { intros j Hj. rewrite <- draw_succ. apply Hrej. lia. }
    { by rewrite <- draw_succ. }
    exists n'. simpl. destruct (rng_random g) as [u g']. simpl in *.
    by rewrite H0, Hfit1.
Qed.

(** When every draw exceeds the fraction the skip loop runs off the end of
    the stream, one draw per row. *)
Lemma skip_loop_exhaust lim fr : ∀ rest row g n,
  rows_fit lim rest = true →
  (∀ j, j < S (length rest) → exceeds (draw j g) fr = true) →
  ∃ n', skip_loop lim fr row rest g n =
          (StopIteration, [], rng_iter (S (length rest)) g, n').
Proof.
  induction rest as [|row1 rest IH]; intros row g n Hfit Hrej;
    pose proof (Hrej 0 ltac:(lia)) as H0; unfold draw in H0; simpl in H0.
  - simpl. destruct (rng_random g) as [u g']. simpl in *. rewrite H0.
    by eexists.
  - simpl in Hfit. apply andb_true_iff in Hfit as [Hfit1 Hfit].
    destruct (IH row1 (rng_random g).2 (S n) Hfit) as (n' & Hs).
    { intros j Hj. rewrite <- draw_succ. apply Hrej. simpl. lia. }
    exists n'. simpl. destruct (rng_random g) as [u g']. simpl in *.
    by rewrite H0, Hfit1.
Qed.

(** Where [ensure_header] leaves a reader that stands before its data. *)
Lemma at_data_ensure lim r f h data :
  closed f = false → at_data lim r f h data →
  ∃ r1 f1, ensure_header lim r f = (Ok tt, r1, f1)
    ∧ rows f1 = data ∧ closed f1 = false
    ∧ self_fraction r1 = self_fraction r ∧ self_rng r1 = self_rng r
    ∧ (data ≠ [] → _fieldnames r1 = Some h).
Proof.
  intros Hc [Hn Hl Hrows Hfit|Hn Hl Hrows ->|Hh Hrows].
  - pose proof (ensure_header_fresh lim r f Hn Hl Hc) as Hfresh.
    rewrite Hrows, Hfit, Hc in Hfresh. destruct Hfresh as (r1 & He & ? & ? & ?).
    eexists _, _. by split_and!.
  - pose proof (ensure_header_fresh lim r f Hn Hl Hc) as Hfresh.
    rewrite Hrows in Hfresh. destruct Hfresh as (r1 & He & ? & ? & ?).
    eexists _, _. by split_and!.
  - destruct (ensure_header_known lim h r f Hh) as (r1 & He & ? & ? & ?).
    eexists _, _. by split_and!.
Qed.

(** C4. With a fraction below 1, on an open stream whose rows fit the limit
    as far as the pull reads them, a pull (the first one, which reads the
    header line before, or a later one) takes the next row of the stream as
    candidate and draws once per candidate, each draw in [0, 1): candidates
    whose draw exceeds the fraction are discarded; the first one whose draw
    is at most the fraction is returned as a mapping of the header names to
    its values, and the stream stands just behind it. The pull signals the
    end of the sequence when the stream is empty at the header read or at
    the main read, or runs out during the skip loop. *)
Theorem sampling_pull lim r f h data :
  (self_fraction r < 1)%Q →
  closed f = false →
  at_data lim r f h data →
  (∀ j, (0 <= draw j (self_rng r))%Q ∧ (draw j (self_rng r) < 1)%Q)
  ∧ (data = [] →
     ∃ r' f', DictReader_next lim r f = (StopIteration, r', f') ∧ rows f' = [])
  ∧ (∀ k row,
       data !! k = Some row →
       rows_fit lim (take (S k) data) = true →
       (∀ j, j < k → (self_fraction r < draw j (self_rng r))%Q) →
       (draw k (self_rng r) <= self_fraction r)%Q →
       ∃ x r' f', DictReader_next lim r f = (Yield x, r', f')
                  ∧ x = dict_zip h row ∧ zipped h row x
                  ∧ rows f' = skipn (S k) data
                  ∧ self_rng r' = rng_iter (S k) (self_rng r))
  ∧ (data ≠ [] →
     rows_fit lim data = true →
     (∀ j, j < length data → (self_fraction r < draw j (self_rng r))%Q) →
     ∃ r' f', DictReader_next lim r f = (StopIteration, r', f')
              ∧ rows f' = []
              ∧ self_rng r' = rng_iter (length data) (self_rng r)).
Proof.
  intros Hlt%lt_one_true Hc Hat.
  destruct (at_data_ensure lim r f h data Hc Hat)
    as (r1 & f1 & He & Hrows & Hc1 & Hfr & Hg & Hh).
  unfold DictReader_next. rewrite He.
  split_and!.
  - intros j. apply rng_random_range.
  - intros ->. unfold read_row, reader_next. rewrite Hc1, Hrows.
    eexists _, _. by split.
  - intros k row Hk Hfit Hrej Hacc.
    assert (data ≠ []) as Hne by (by intros ->).
    specialize (Hh Hne).
    unfold read_row, reader_next. rewrite Hc1, Hrows.
    destruct data as [|row0 rest]; [done |].
    simpl in Hfit. apply andb_true_iff in Hfit as [Hfit0 Hfit].
    rewrite Hfit0. simpl. rewrite Hfr, Hg, Hlt.
    destruct (skip_loop_accept lim (self_fraction r) k rest row0 (self_rng r)
                (S (reader_line_num r1)) row Hk Hfit) as (n' & ->).
    { intros j Hj. by apply exceeds_true, Hrej. }
    { by apply exceeds_false. }
    rewrite (fieldnames_known lim h) by done.
    eexists _, _, _. split_and!; try done. apply dict_zip_zipped.
  - intros Hne Hfit Hrej. specialize (Hh Hne).
    unfold read_row, reader_next. rewrite Hc1, Hrows.
    destruct data as [|row0 rest]; [done |].
    simpl in Hfit. apply andb_true_iff in Hfit as [Hfit0 Hfit].
    rewrite Hfit0. simpl. rewrite Hfr, Hg, Hlt.
    destruct (skip_loop_exhaust lim (self_fraction r) rest row0 (self_rng r)
                (S (reader_line_num r1)) Hfit) as (n' & ->).
    { intros j Hj. apply exceeds_true, Hrej. simpl. lia. }
    by eexists _, _.
Qed.

(** C2 (as amended). A row is never rejected for its length: once the header
    [h] is known, the only exceptions a pull can raise are those of the
    underlying reader (a field longer than the limit in force, a closed
    stream), and the record it returns is the header paired with one of the
    rows of the stream position by position up to the shorter of the two.
    Its keys are the first [length row] header names, so a short row leaves
    the later names out and the surplus values of a long row are not
    kept. *)
Theorem ragged_row_is_zipped lim h r f r1 f1 out r' f' :
  ensure_header lim r f = (Ok tt, r1, f1) →
  _fieldnames r1 = Some h →
  DictReader_next lim r f = (out, r', f') →
  (∀ e, out = Raised e →
     (e = csv_Error ∧ rows_fit lim (rows f1) = false)
     ∨ (e = ValueError ∧ closed f1 = true))
  ∧ (∀ x, out = Yield x →
     ∃ row, row ∈ rows f1 ∧ x = dict_zip h row
       ∧ dom x = list_to_set (take (length row) h)
       ∧ (NoDup h → ∀ i nm, h !! i = Some nm → x !! nm = VStr <$> row !! i)).
Proof.
  intros He Hh Hnext. unfold DictReader_next in Hnext. rewrite He in Hnext.
  destruct (closed f1) eqn:Hc.
  { unfold read_row, reader_next in Hnext. rewrite Hc in Hnext.
    injection Hnext as <- <- <-. split; [| done].
    intros e [= <-]. by right. }
  destruct (read_row_known lim h r1 f1 Hh Hc)
    as (out' & r'' & f'' & Hrr & _ & _ & _ & _ & Hout).
  rewrite Hnext in Hrr. injection Hrr as <- <- <-.
  split.
  - intros e ->. destruct Hout as (-> & _ & Hfit). by left.
  - intros x ->. destruct Hout as (row & -> & Hacc & _).
    exists row. split_and!.
    + eapply elem_of_sublist;
        [| etrans; [apply accepted_rows_sublist | apply fit_prefix_sublist]].
      rewrite Hacc. left.
    + done.
    + apply dict_zip_dom.
    + intros Hnd i nm Hi. by apply dict_zip_lookup.
Qed.

Lemma Forall2_zipped h (data : list (list string)) :
  Forall2 (zipped h) data (dict_zip h <$> data).
Proof.
  induction data as [|row data IH]; simpl; constructor;
    [apply dict_zip_zipped | done].
Qed.

(** C3. When the fraction equals 1, whatever the generator (so whatever the
    seed), iterating the reader over an open stream whose fields fit the
    limit hands out one record per data row, in input order, then stops;
    each record maps the header names to the values of its row; and the
    generator the reader holds at the end is the one it was given: no number
    was drawn. *)
Theorem identity_sampling lim fr g f fuel :
  (fr == 1)%Q →
  length (rows f) < fuel →
  closed f = false →
  rows_fit lim (rows f) = true →
  ∃ xs r' f',
    DictReader_iter lim fuel (DictReader_init fr g) f = (xs, Exhausted, r', f')
    ∧ xs = dict_zip (hd [] (rows f)) <$> tail (rows f)
    ∧ Forall2 (zipped (hd [] (rows f))) (tail (rows f)) xs
    ∧ self_rng r' = g.
Proof.
  intros Hfr Hfuel Hc Hfit.
  assert (lt_one fr = false) as Hlt
    by (apply lt_one_false; rewrite Hfr; apply Qle_refl).
  destruct (DictReader_iter_fresh lim fr g f fuel Hfuel)
    as (r' & f' & Hit & _ & _ & Hg).
  unfold reader_records, reader_end in Hit. rewrite Hc, Hfit in Hit.
  exists (dict_zip (hd [] (rows f)) <$> tail (rows f)), r', f'.
  split_and!; [| done | apply Forall2_zipped | by apply Hg].
  rewrite Hit. destruct (rows f) as [|h data]; [done |].
  simpl in Hfit. apply andb_true_iff in Hfit as [-> Hfit].
  unfold accepted_rows. by rewrite Hlt, fit_prefix_all.
Qed.

(** C5. With a fixed integer seed, two sessions over the same stream under
    the same field-size limit yield the same pairs and end the same way,
    whatever entropy the system would give an unseeded generator; and the
    yielded pairs are the loop body's results on a subsequence of the data
    rows, in their input order. *)
Theorem seeded_sessions_agree cfg s w1 w2 :
  seed cfg = Some s →
  buffer w1 = buffer w2 →
  csv_field_size_limit w1 = csv_field_size_limit w2 →
  (iter_csv cfg w1).1.1.1 = (iter_csv cfg w2).1.1.1
  ∧ (iter_csv cfg w1).1.1.2 = (iter_csv cfg w2).1.1.2
  ∧ match rows (buffer w1) with
    | [] => (iter_csv cfg w1).1.1.1 = []
    | h :: data =>
        ∃ sub, sub `sublist_of` data
          ∧ Forall2 (λ row p, process_record cfg (dict_zip h row) = Ok p)
                    sub (iter_csv cfg w1).1.1.1
    end.
Proof.
  intros Hs Hbuf Hlim.
  pose proof (iter_csv_run_body cfg w1) as Hb1.
  pose proof (iter_csv_run_body cfg w2) as Hb2.
  assert (session_records cfg w1 = session_records cfg w2
          ∧ session_end cfg w1 = session_end cfg w2) as [Hrec Hend].
  { unfold session_records, session_end, session_limit, Random.
    by rewrite Hs, Hbuf, Hlim. }
  rewrite <- Hrec, <- Hend, <- Hb1 in Hb2. injection Hb2 as Hys Hen.
  split_and!; [done | done |].
  destruct (run_body_prefix cfg (session_records cfg w1) (session_end cfg w1))
    as (pre & post & Hsplit & HF).
  rewrite <- Hb1 in HF. simpl in HF.
  pose proof (session_records_sublist cfg w1) as Hd1.
  destruct (rows (buffer w1)) as [|h data].
  - rewrite Hd1 in Hsplit. symmetry in Hsplit.
    apply app_eq_nil in Hsplit as [-> _]. by apply Forall2_nil_inv_l in HF.
  - destruct Hd1 as (sub0 & Hsub0 & Hrec0). rewrite Hrec0 in Hsplit.
    apply fmap_app_inv in Hsplit as (sub & rest & -> & -> & Hacc).
    exists sub. split.
    + etrans; [| exact Hsub0]. rewrite Hacc. by apply sublist_inserts_r.
    + by apply Forall2_fmap_l in HF.
Qed.

(** ** The field-size limit and the stream *)

(** C6 (as amended). A session always ends. If it ends because the stream
    is exhausted, the stream is closed and the field-size limit is back at
    the value it had when the session began. If it ends with an exception,
    neither happens: the stream is as open as it was, and the limit stays at
    the session's [field_size_limit] when one was given and could be
    installed, at the value the session found otherwise. (The limit the
    session finds is a C long, as every value the csv module stores.) *)
Theorem cleanup_only_on_exhaustion cfg w :
  in_long (csv_field_size_limit w) = true →
  match (iter_csv cfg w).1.1.2 with
  | Exhausted =>
      closed (buffer (iter_csv cfg w).2) = true
      ∧ csv_field_size_limit (iter_csv cfg w).2 = csv_field_size_limit w
  | Aborted _ =>
      closed (buffer (iter_csv cfg w).2) = closed (buffer w)
      ∧ csv_field_size_limit (iter_csv cfg w).2 =
          match field_size_limit cfg with
          | Some l => if in_long l then l else csv_field_size_limit w
          | None => csv_field_size_limit w
          end
  | OutOfFuel => False
  end.
Proof.
  intros Hlong. destruct (iter_csv cfg w) as [[[ys en] gs] w'] eqn:Hrun.
  apply iter_csv_world in Hrun as [_ Hw]. simpl.
  destruct en; [by destruct Hw | | done].
  destruct Hw as [Hl Hcl]. split; [by apply Hcl |].
  rewrite Hl. unfold session_limit.
  destruct (field_size_limit cfg) as [l|]; [| done]. by destruct (in_long l).
Qed.

(** One turn of the loop leaves the limit alone or, at exhaustion, writes
    back the value the generator saved. *)
Lemma loop_step_limit cfg limit r w out gs w' :
  loop_step cfg limit r w = (out, gs, w') →
  (csv_field_size_limit w' = csv_field_size_limit w
   ∨ csv_field_size_limit w' = limit)
  ∧ (∀ l r', gs = Suspended l r' → l = limit).
Proof.
  unfold loop_step, csv_set_field_size_limit.
  destruct (DictReader_next _ r (buffer w)) as [[[x| |ex] r1] f1].
  - destruct (process_record cfg x); intros [= <- <- <-]; split;
      [by left | by intros ?? [= <-] | by left | done].
  - destruct (in_long limit); intros [= <- <- <-]; split;
      [by right | done | by left | done].
  - intros [= <- <- <-]. split; [by left | done].
Qed.

(** C10. When [field_size_limit] is [None] the session never changes the
    csv field-size limit: after any number of pulls on the generator the
    limit is the one the session found, the value the suspended generator
    keeps to write back is that same value, and the limit is still the same
    when the session has run to its end. *)
Theorem limit_untouched_without_override cfg w :
  field_size_limit cfg = None →
  (∀ n, csv_field_size_limit (pulls cfg n w).2 = csv_field_size_limit w
        ∧ ∀ l r, (pulls cfg n w).1 = Suspended l r →
                 l = csv_field_size_limit w)
  ∧ csv_field_size_limit (iter_csv cfg w).2 = csv_field_size_limit w.
Proof.
  intros Hnone. split.
  - induction n as [|n [IH1 IH2]]; [done |].
    simpl. destruct (pulls cfg n w) as [gs w1]. simpl in *.
    destruct (iter_csv_next cfg gs w1) as [[out gs'] w2] eqn:Hstep. simpl.
    destruct gs as [|l r|]; simpl in Hstep.
    + rewrite Hnone in Hstep. apply loop_step_limit in Hstep as [Hl Hs].
      split; [destruct Hl; congruence |].
      intros l r ->%Hs. done.
    + apply loop_step_limit in Hstep as [Hl Hs].
      pose proof (IH2 l r eq_refl) as ->.
      split; [destruct Hl; congruence |].
      intros l' r' ->%Hs. done.
    + injection Hstep as _ <- <-. done.
  - destruct (iter_csv cfg w) as [[[ys en] gs] w'] eqn:Hrun.
    apply iter_csv_world in Hrun as [_ Hw]. simpl.
    unfold session_limit in Hw. rewrite Hnone in Hw. simpl in Hw.
    destruct en; [by destruct Hw | by destruct Hw | done].
Qed.

(** * Further properties of the loop body and of sessions *)

(** ** Dropped fields *)

(** X1. A name of the drop list is a key of no yielded features mapping,
    and when it is also the target name every yielded target is [None]. *)
Theorem dropped_field_is_gone cfg w l n feat y :
  drop cfg = Some l → n ∈ l →
  (feat, y) ∈ (iter_csv cfg w).1.1.1 →
  feat !! n = None ∧ (target_name cfg = Some n → y = VNone).
Proof.
  intros Hd Hn (h & data & row & _ & _ & Hp)%yield_origin.
  apply process_record_Ok_inv in Hp as (x1 & x2 & x3 & H1 & H2 & H3 & Hpop).
  apply drop_stage_Ok in H1 as [H1 _]. specialize (H1 l n Hd Hn).
  apply convert_stage_Ok in H2 as [H2 _]. apply parse_stage_Ok in H3 as [H3 _].
  assert (x3 !! n = None) as Hx3 by (by apply H3, H2).
  apply pop_lookup in Hpop as (Hp1 & _ & Hp3). split; [by apply Hp1 |].
  intros Ht. destruct (Hp3 n Ht) as [_ ->]. by rewrite Hx3.
Qed.

(** X2. When the drop list names a field that is not in the header, no pair
    is ever yielded, and as soon as the reader hands out a record the
    session ends with a KeyError raised on the first one. *)
Theorem drop_of_unknown_field cfg w h data l n :
  rows (buffer w) = h :: data →
  drop cfg = Some l → n ∈ l → n ∉ h →
  (iter_csv cfg w).1.1.1 = []
  ∧ (session_records cfg w ≠ [] →
     ∃ m, (iter_csv cfg w).1.1.2 = Aborted (KeyError m)).
Proof.
  intros Hrows Hd Hn Hnh.
  assert (∀ x, x ∈ session_records cfg w →
               ∃ m, process_record cfg x = Raise (KeyError m)) as Hfail.
  { intros x Hx. pose proof (session_records_sublist cfg w) as Hdesc.
    rewrite Hrows in Hdesc. destruct Hdesc as (sub & _ & Hrec).
    rewrite Hrec in Hx. apply list_elem_of_fmap in Hx as (row & -> & _).
    assert (dict_zip h row !! n = None) as Hnone.
    { apply not_elem_of_dom. rewrite dict_zip_dom, elem_of_list_to_set.
      intros Hin. apply Hnh. eapply elem_of_sublist; [done | apply sublist_take]. }
    destruct (absent_drop_name_fails cfg _ l n Hd Hn Hnone) as [m Hm].
    exists m. by apply stage_failure_raises. }
  split.
  - apply no_yield_when_body_fails. intros x Hx.
    destruct (Hfail x Hx) as [m Hm]. by exists (KeyError m).
  - intros Hne. pose proof (iter_csv_run_body cfg w) as Hb.
    destruct (session_records cfg w) as [|x xs] eqn:Hrec; [done |].
    destruct (Hfail x ltac:(left)) as [m Hm]. exists m.
    simpl in Hb. rewrite Hm in Hb. by injection Hb.
Qed.

(** X6. A name that occurs twice in the drop list makes the loop body raise
    a KeyError on every record, so such a session yields nothing. *)
Theorem duplicate_drop_name cfg w l :
  drop cfg = Some l → ¬ NoDup l →
  (∀ x, ∃ m, process_record cfg x = Raise (KeyError m))
  ∧ (iter_csv cfg w).1.1.1 = [].
Proof.
  intros Hd Hdup.
  assert (∀ x, ∃ m, process_record cfg x = Raise (KeyError m)) as Hfail.
  { intros x. unfold process_record, transform. rewrite Hd, drop_stage_Some.
    destruct (del_fields l x) as [x'|e] eqn:Hdel.
    - by apply del_fields_Ok_NoDup in Hdel.
    - apply del_fields_Raise_inv in Hdel as (? & m & ? & ? & _ & _ & _ & ->).
      by exists m. }
  split; [done |]. apply no_yield_when_body_fails. intros x _.
  destruct (Hfail x) as [m Hm]. by exists (KeyError m).
Qed.

(** ** The keys and the values of what is yielded *)

(** X3. The keys of a yielded features mapping are the header names the row
    reaches, less the names of the drop list, less the target name. *)
Theorem feature_keys cfg w feat y :
  (feat, y) ∈ (iter_csv cfg w).1.1.1 →
  ∃ h data row,
    rows (buffer w) = h :: data ∧ row ∈ data
    ∧ dom feat =
        (list_to_set (take (length row) h) ∖ list_to_set (default [] (drop cfg)))
        ∖ match target_name cfg with Some k => {[k]} | None => ∅ end.
Proof.
  intros (h & data & row & Hrows & Hrow & Hp)%yield_origin.
  exists h, data, row. split_and!; [done | done |].
  apply process_record_Ok_inv in Hp as (x1 & x2 & x3 & H1 & H2 & H3 & Hpop).
  apply convert_stage_Ok in H2 as [H2 _]. apply parse_stage_Ok in H3 as [H3 _].
  apply none_iff_dom in H2, H3.
  assert (dom x1 = dom (dict_zip h row) ∖ list_to_set (default [] (drop cfg)))
    as Hd1.
  { destruct (drop cfg) as [l|]; simpl.
    - rewrite drop_stage_Some in H1. by apply del_fields_dom.
    - injection H1 as <-. by rewrite difference_empty_L. }
  rewrite <- dict_zip_dom, <- Hd1, <- H2, <- H3.
  destruct (target_name cfg) as [k|]; simpl in Hpop.
  - destruct (x3 !! k) eqn:Hk; injection Hpop as <- <-.
    + apply dom_delete_L.
    + apply set_eq. intros j. rewrite elem_of_difference, elem_of_singleton.
      split; [| by intros [? _]]. intros Hj. split; [done |].
      intros ->. apply elem_of_dom in Hj as [? ?]. congruence.
  - injection Hpop as <- <-. by rewrite difference_empty_L.
Qed.

(** X4. A field that is in neither table reaches the features mapping as
    the raw string read from the file. *)
Theorem untouched_field_is_raw cfg w feat y k v :
  k ∉ keys (converters cfg) → k ∉ keys (parse_dates cfg) →
  (feat, y) ∈ (iter_csv cfg w).1.1.1 →
  feat !! k = Some v →
  ∃ h data row s,
    rows (buffer w) = h :: data ∧ row ∈ data ∧ s ∈ row
    ∧ dict_zip h row !! k = Some (VStr s) ∧ v = VStr s.
Proof.
  intros Hc Hpd (h & data & row & Hrows & Hrow & Hp)%yield_origin Hk.
  apply process_record_Ok_inv in Hp as (x1 & x2 & x3 & H1 & H2 & H3 & Hpop).
  apply drop_stage_Ok in H1 as [_ H1].
  apply convert_stage_Ok in H2 as [_ H2]. apply parse_stage_Ok in H3 as [_ H3].
  apply pop_lookup in Hpop as (_ & Hsub & _).
  apply Hsub in Hk. rewrite H3, H2 in Hk by done. apply H1 in Hk.
  destruct (dict_zip_str _ _ _ _ Hk) as (s & -> & Hs).
  by exists h, data, row, s.
Qed.

(** X5. The stages act field by field. With tables whose keys are distinct,
    every value of a yielded features mapping is the field's raw string
    passed through the converter registered for that field, if any, and
    then through the date format registered for it, if any; and so is the
    target, when the target field is in the row and is not dropped. *)
Theorem field_by_field cfg w feat y :
  NoDup (keys (converters cfg)) → NoDup (keys (parse_dates cfg)) →
  (feat, y) ∈ (iter_csv cfg w).1.1.1 →
  ∃ h data row,
    rows (buffer w) = h :: data ∧ row ∈ data
    ∧ (∀ k u, feat !! k = Some u →
       ∃ s, dict_zip h row !! k = Some (VStr s)
            ∧ field_value cfg k (VStr s) = Ok u)
    ∧ (∀ k s, target_name cfg = Some k →
       k ∉ default [] (drop cfg) →
       dict_zip h row !! k = Some (VStr s) →
       field_value cfg k (VStr s) = Ok y).
Proof.
  intros Hnc Hnp (h & data & row & Hrows & Hrow & Hp)%yield_origin.
  exists h, data, row. split_and!; [done | done | |].
  - intros k u Hk.
    apply process_record_Ok_inv in Hp as (x1 & x2 & x3 & H1 & H2 & H3 & Hpop).
    apply pop_lookup in Hpop as (_ & Hsub & _). apply Hsub in Hk.
    destruct (tables_field_value cfg x1 x2 x3 k u Hnc Hnp H2 H3 Hk)
      as (u1 & Hu1 & Hfv).
    apply drop_stage_Ok in H1 as [_ H1]. apply H1 in Hu1.
    destruct (dict_zip_str _ _ _ _ Hu1) as (s & -> & _). by exists s.
  - intros k s Ht Hnd Hraw.
    apply process_record_Ok_inv in Hp as (x1 & x2 & x3 & H1 & H2 & H3 & Hpop).
    apply pop_lookup in Hpop as (_ & _ & Hy). destruct (Hy k Ht) as [_ ->].
    pose proof (drop_stage_frame _ _ _ k H1 Hnd) as Hx1. rewrite Hraw in Hx1.
    pose proof H2 as [H2n _]%convert_stage_Ok.
    pose proof H3 as [H3n _]%parse_stage_Ok.
    destruct (x3 !! k) as [u'|] eqn:Hx3.
    + destruct (tables_field_value cfg x1 x2 x3 k u' Hnc Hnp H2 H3 Hx3)
        as (u1 & Hu1 & Hfv).
      simpl. congruence.
    + apply H3n, H2n in Hx3. congruence.
Qed.

(** ** Rows that stop short of the target *)

(** X17. When a row is too short to reach the column of the target, the
    loop body does not fail for that: if it yields, the target is [None];
    and it can only yield if neither table has an entry for the target. *)
Theorem short_row_has_no_target cfg h (row : list string) i k feat y :
  NoDup h → h !! i = Some k → length row ≤ i →
  target_name cfg = Some k →
  process_record cfg (dict_zip h row) = Ok (feat, y) →
  y = VNone
  ∧ (k ∉ keys (converters cfg)) ∧ (k ∉ keys (parse_dates cfg)).
Proof.
  intros Hnd Hi Hlen Ht Hp.
  assert (dict_zip h row !! k = None) as Hraw.
  { rewrite (dict_zip_lookup h row i k Hnd Hi).
    by rewrite (proj2 (lookup_ge_None row i) Hlen). }
  apply process_record_Ok_inv in Hp as (x1 & x2 & x3 & H1 & H2 & H3 & Hpop).
  assert (x1 !! k = None) as Hx1.
  { apply drop_stage_Ok in H1 as [_ H1].
    destruct (x1 !! k) as [u|] eqn:Hu; [| done]. apply H1 in Hu. congruence. }
  pose proof H2 as [H2n _]%convert_stage_Ok.
  pose proof H3 as [H3n _]%parse_stage_Ok.
  assert (x2 !! k = None) as Hx2 by (by apply H2n).
  assert (x3 !! k = None) as Hx3 by (by apply H3n).
  apply pop_lookup in Hpop as (_ & _ & Hy). destruct (Hy k Ht) as [_ ->].
  rewrite Hx3. split_and!; [done | |].
  - rewrite convert_stage_table in H2. unfold keys.
    destruct (converters cfg) as [c|]; [| by intros ?%elem_of_nil].
    apply apply_table_Ok in H2 as (H2a & _ & _). intros Hin%H2a.
    rewrite Hx1 in Hin. by destruct Hin.
  - rewrite parse_stage_table in H3. unfold keys.
    destruct (parse_dates cfg) as [p|]; [| by intros ?%elem_of_nil].
    apply apply_table_Ok in H3 as (H3a & _ & _). intros Hin%H3a.
    rewrite Hx2 in Hin. by destruct Hin.
Qed.

(** ** More on sampling *)

Lemma rng_iter_succ_r n : ∀ g, rng_iter (S n) g = (rng_random (rng_iter n g)).2.
Proof. induction n as [|n IH]; intros g; [done |]. simpl in *. apply IH. Qed.

Lemma rng_iter_succ_l n g : rng_iter (S n) g = rng_iter n (rng_random g).2.
Proof. done. Qed.

Lemma rng_iter_add a : ∀ b g, rng_iter (a + b) g = rng_iter b (rng_iter a g).
Proof. induction a as [|a IH]; intros b g; [done |]. simpl. apply IH. Qed.

(** The rows the trials keep, read off the numbered draws of the generator
    the reader was given. *)
Lemma bernoulli_by_index fr g data : ∀ i,
  bernoulli fr (rng_iter i g) data =
  (filter (λ ir, exceeds (draw ir.1 g) fr = false)
          (imap (λ j row, (i + j, row)) data)).*2.
Proof.
  induction data as [|row data IH]; intros i; [done |].
  rewrite imap_cons. cbn [bernoulli].
  assert (draw i g = (rng_random (rng_iter i g)).1) as Hd by done.
  pose proof (rng_iter_succ_r i g) as Hs.
  destruct (rng_random (rng_iter i g)) as [u g'] eqn:Hr. cbn [fst snd] in Hd, Hs.
  rewrite <- Hs, IH.
  rewrite (imap_ext (λ j row0, (S i + j, row0))
             ((λ j row0, (i + j, row0)) ∘ S)) by (intros; simpl; f_equal; lia).
  destruct (exceeds u fr) eqn:Hu.
  - rewrite filter_cons_False; [done |].
    simpl. rewrite Nat.add_0_r, Hd, Hu. done.
  - rewrite filter_cons_True; [by rewrite Nat.add_0_r |].
    simpl. by rewrite Nat.add_0_r, Hd.
Qed.

Lemma bernoulli_negative fr data : ∀ g, (fr < 0)%Q → bernoulli fr g data = [].
Proof.
  induction data as [|row data IH]; intros g Hneg; [done |]. simpl.
  pose proof (rng_random_range g) as [Hge _].
  destruct (rng_random g) as [u g']. simpl in *.
  assert (exceeds u fr = true) as ->
    by (apply exceeds_true; by eapply Qlt_le_trans).
  by apply IH.
Qed.


Lemma skip_loop_rng lim fr rest : ∀ row g n,
  rows_fit lim rest = true →
  (skip_loop lim fr row rest g n).1.2 =
    rng_iter (S (length rest) - length (skip_loop lim fr row rest g n).1.1.2) g
  ∧ length (skip_loop lim fr row rest g n).1.1.2 ≤ length rest.
Proof.
  induction rest as [|row1 rest IH]; intros row g n Hfit; simpl.
  - destruct (rng_random g) as [u g'] eqn:Hr. destruct (exceeds u fr); simpl;
      by rewrite Hr.
  - simpl in Hfit. apply andb_true_iff in Hfit as [Hfit1 Hfit].
    destruct (rng_random g) as [u g'] eqn:Hr. destruct (exceeds u fr); simpl.
    + rewrite Hfit1. destruct (IH row1 g' (S n) Hfit) as [IH1 IH2].
      split; [| lia]. rewrite IH1.
      replace (S (S (length rest))
               - length (skip_loop lim fr row1 rest g' (S n)).1.1.2)
        with (S (S (length rest)
                 - length (skip_loop lim fr row1 rest g' (S n)).1.1.2))
        by lia.
      by rewrite rng_iter_succ_l, Hr.
    + split; [| lia].
      replace (rng_iter _ g) with (rng_iter 1 g) by (f_equal; lia).
      by rewrite rng_iter_succ_l, Hr.
Qed.

(** Under sampling a pull draws once for every row it takes off a stream
    whose rows fit the limit. *)
Lemma read_row_draws lim h r f out r' f' :
  _fieldnames r = Some h → closed f = false →
  lt_one (self_fraction r) = true →
  rows_fit lim (rows f) = true →
  read_row lim r f = (out, r', f') →
  self_rng r' = rng_iter (length (rows f) - length (rows f')) (self_rng r)
  ∧ length (rows f') ≤ length (rows f).
Proof.
  intros Hh Hc Hlt Hfit. unfold read_row, reader_next. rewrite Hc.
  destruct (rows f) as [|row rest] eqn:Hrows; simpl.
  { intros [= <- <- <-]. rewrite Hrows. done. }
  simpl in Hfit. apply andb_true_iff in Hfit as [Hfit0 Hfit].
  rewrite Hfit0. simpl. rewrite Hlt.
  pose proof (skip_loop_rng lim (self_fraction r) rest row (self_rng r)
                (S (reader_line_num r)) Hfit) as [Hg Hlen].
  destruct (skip_loop _ _ _ _ _ _) as [[[[row'| |e] rest'] g'] n']; simpl in *.
  - rewrite (fieldnames_known lim h) by done. intros [= <- <- <-]. simpl.
    split; [done | lia].
  - intros [= <- <- <-]. simpl. split; [done | lia].
  - intros [= <- <- <-]. simpl. split; [done | lia].
Qed.

Lemma DictReader_iter_draws lim h : ∀ fuel r f r1 f1 xs en r' f',
  DictReader_next lim r f = read_row lim r1 f1 →
  _fieldnames r1 = Some h → closed f1 = false →
  lt_one (self_fraction r1) = true →
  rows_fit lim (rows f1) = true →
  DictReader_iter lim fuel r f = (xs, en, r', f') →
  en ≠ OutOfFuel →
  self_rng r' = rng_iter (length (rows f1) - length (rows f')) (self_rng r1)
  ∧ length (rows f') ≤ length (rows f1).
Proof.
  induction fuel as [|fuel IH]; intros r f r1 f1 xs en r' f' Hnext Hh Hc Hlt Hfit;
    simpl; [by intros [= <- <- <- <-] |].
  rewrite Hnext.
  destruct (read_row lim r1 f1) as [[out ra] fa] eqn:Hrr.
  pose proof (read_row_draws lim h r1 f1 out ra fa Hh Hc Hlt Hfit Hrr) as [Hg Hlen].
  destruct (read_row_known lim h r1 f1 Hh Hc)
    as (out' & ra' & fa' & Hrr' & Hha & Hfra & Hca & _ & Hout).
  rewrite Hrr in Hrr'. injection Hrr' as <- <- <-.
  destruct out as [x| |ex].
  - destruct Hout as (row & _ & _ & _ & Hfita).
    destruct (DictReader_next_known lim h ra fa Hha) as (ra1 & Hn1 & Hh1 & Hfr1 & Hg1).
    destruct (DictReader_iter lim fuel ra fa) as [[[xs1 en1] rb] fb] eqn:Hit.
    intros [= <- <- <- <-] Hne.
    destruct (IH ra fa ra1 fa xs1 en1 rb fb Hn1 Hh1) as [Hgb Hlenb];
      [congruence | congruence | congruence | done | done |].
    split; [| lia].
    rewrite Hgb, Hg1, Hg, <- rng_iter_add. f_equal. lia.
  - by intros [= <- <- <- <-] _.
  - by intros [= <- <- <- <-] _.
Qed.

(** X10. Under sampling (fraction below 1), over an open stream whose
    fields fit the limit, the reader makes one trial per data row against
    the one generator it was given: iterating it draws exactly once per data
    row, and hands out the [i]-th data row exactly when the [i]-th draw does
    not exceed the fraction. *)
Theorem one_trial_per_row lim fr g h data fuel :
  (fr < 1)%Q →
  S (length data) < fuel →
  rows_fit lim (h :: data) = true →
  ∃ r' f',
    DictReader_iter lim fuel (DictReader_init fr g) (mkFile (h :: data) false) =
      (dict_zip h <$>
         (filter (λ ir, exceeds (draw ir.1 g) fr = false) (imap pair data)).*2,
       Exhausted, r', f')
    ∧ self_rng r' = rng_iter (length data) g.
Proof.
  intros Hlt%lt_one_true Hfuel Hfit.
  destruct (DictReader_iter_fresh lim fr g (mkFile (h :: data) false) fuel)
    as (r' & f' & Hit & _ & Hrows & _); [simpl; lia |].
  unfold reader_records, reader_end in Hit, Hrows. simpl in Hit, Hrows.
  pose proof Hfit as Hfit'. simpl in Hfit'.
  apply andb_true_iff in Hfit' as [Hfh Hfd].
  rewrite Hfh, Hfd in *. simpl in *. rewrite fit_prefix_all in Hit by done.
  exists r', f'. split.
  - rewrite Hit. unfold accepted_rows. rewrite Hlt.
    pose proof (bernoulli_by_index fr g data 0) as Hb.
    change (rng_iter 0 g) with g in Hb. by rewrite Hb.
  - pose proof (ensure_header_fresh lim (DictReader_init fr g)
                  (mkFile (h :: data) false) eq_refl eq_refl eq_refl) as Hfresh.
    simpl in Hfresh. rewrite Hfh in Hfresh.
    destruct Hfresh as (r1 & He & Hh & Hfr & Hg).
    assert (DictReader_next lim (DictReader_init fr g) (mkFile (h :: data) false)
            = read_row lim r1 (mkFile data false)) as Hnext
      by (unfold DictReader_next; by rewrite He).
    simpl in Hfr, Hg. rewrite <- Hfr in Hlt.
    destruct (DictReader_iter_draws lim h fuel _ _ r1 (mkFile data false) _ _ _ _
                Hnext Hh eq_refl Hlt Hfd Hit) as [Hd _]; [done |].
    rewrite Hd, Hg, (Hrows eq_refl). simpl. by rewrite Nat.sub_0_r.
Qed.

(** A session that nothing prevents from reading its stream ends as its
    reader does, at the end of the stream. *)
Lemma clean_session cfg w :
  clean cfg w = true →
  ∃ lim, session_limit cfg w = Some lim
    ∧ closed (buffer w) = false
    ∧ rows_fit lim (rows (buffer w)) = true
    ∧ session_records cfg w =
        reader_records lim (fraction cfg) (Random (seed cfg) w) (buffer w)
    ∧ session_end cfg w = Exhausted.
Proof.
  unfold clean. intros [[Hc Hlong]%andb_true_iff Hfit]%andb_true_iff.
  apply negb_true_iff in Hc.
  destruct (session_limit cfg w) as [lim|] eqn:Hl; [| done].
  destruct (session_desc cfg w lim Hl) as [Hrec Hend].
  exists lim. split_and!; try done.
  rewrite Hend. unfold reader_end, restored. by rewrite Hc, Hfit, Hlong.
Qed.

(** X9. The fraction is not validated: any fraction of at least 1 switches
    sampling off. When nothing prevents the session from reading its stream
    (it is open, every field fits the limit in force, the limits are C
    longs) and the loop body succeeds on every data row, the session then
    yields one pair per data row, in input order, and ends normally. *)
Theorem no_sampling_from_one_up cfg w h data ps :
  (1 <= fraction cfg)%Q →
  clean cfg w = true →
  rows (buffer w) = h :: data →
  Forall2 (λ row p, process_record cfg (dict_zip h row) = Ok p) data ps →
  (iter_csv cfg w).1.1.1 = ps ∧ (iter_csv cfg w).1.1.2 = Exhausted.
Proof.
  intros Hfr%lt_one_false (lim & Hl & Hc & Hfit & Hrec & Hend)%clean_session
    Hrows HF.
  pose proof (iter_csv_run_body cfg w) as Hb.
  unfold reader_records in Hrec. rewrite Hc, Hrows in Hrec.
  rewrite Hrows in Hfit. simpl in Hfit.
  apply andb_true_iff in Hfit as [Hfh Hfd].
  rewrite Hfh in Hrec. unfold accepted_rows in Hrec.
  rewrite Hfr, fit_prefix_all in Hrec by done.
  rewrite Hrec, Hend, (run_body_all_ok cfg _ ps Exhausted) in Hb.
  - by injection Hb.
  - by apply Forall2_fmap_l.
Qed.

Lemma negative_fraction_records cfg w :
  (fraction cfg < 0)%Q → session_records cfg w = [].
Proof.
  intros Hneg.
  assert (lt_one (fraction cfg) = true) as Hlt.
  { apply lt_one_true. by eapply Qlt_trans. }
  destruct (session_limit cfg w) as [lim|] eqn:Hl.
  - destruct (session_desc cfg w lim Hl) as [-> _]. unfold reader_records.
    destruct (closed _); [done |]. destruct (rows _); [done |].
    destruct (row_fits _ _); [| done].
    unfold accepted_rows. by rewrite Hlt, bernoulli_negative.
  - by destruct (session_overflow cfg w Hl) as [-> _].
Qed.

(** X8. A negative fraction is not rejected either: every draw exceeds it,
    so the session never yields a pair; and when nothing prevents it from
    reading its stream it reads it to the end and ends normally. *)
Theorem negative_fraction_yields_nothing cfg w :
  (fraction cfg < 0)%Q →
  (iter_csv cfg w).1.1.1 = []
  ∧ (clean cfg w = true → (iter_csv cfg w).1.1.2 = Exhausted).
Proof.
  intros Hneg. pose proof (iter_csv_run_body cfg w) as Hb.
  rewrite (negative_fraction_records cfg w Hneg) in Hb. simpl in Hb.
  injection Hb as Hys Hen. split; [done |].
  intros (lim & _ & _ & _ & _ & Hend)%clean_session. congruence.
Qed.

(** ** The stream only moves forward *)

Lemma reader_next_rows lim r f :
  rows (reader_next lim r f).2 `suffix_of` rows f
  ∧ (∀ row, (reader_next lim r f).1.1 = Yield row →
     length (rows (reader_next lim r f).2) < length (rows f))
  ∧ ((reader_next lim r f).1.1 = StopIteration →
     rows (reader_next lim r f).2 = []).
Proof.
  unfold reader_next. destruct (closed f); [by split_and! |].
  destruct (rows f) as [|row rest] eqn:Hrows; simpl.
  - rewrite Hrows. by split_and!.
  - destruct (row_fits lim row); simpl;
      (split_and!; [by apply suffix_cons_r | intros; lia || done | done]).
Qed.

Lemma fieldnames_rows lim r f : rows (fieldnames lim r f).2 `suffix_of` rows f.
Proof.
  unfold fieldnames. destruct (_fieldnames r); simpl; [done |].
  pose proof (reader_next_rows lim r f) as [Hs _].
  by destruct (reader_next lim r f) as [[[hd| |e] r1] f1].
Qed.

Lemma ensure_header_rows lim r f :
  rows (ensure_header lim r f).2 `suffix_of` rows f.
Proof.
  unfold ensure_header. destruct (line_num r =? 0)%nat; [| done].
  pose proof (fieldnames_rows lim r f).
  by destruct (fieldnames lim r f) as [[[o|e] r1] f1].
Qed.

Lemma skip_loop_rows lim fr rest : ∀ row g n,
  (skip_loop lim fr row rest g n).1.1.2 `suffix_of` rest
  ∧ ((skip_loop lim fr row rest g n).1.1.1 = StopIteration →
     (skip_loop lim fr row rest g n).1.1.2 = []).
Proof.
  induction rest as [|row1 rest IH]; intros row g n; simpl;
    destruct (rng_random g) as [u g']; destruct (exceeds u fr); simpl;
    try done.
  destruct (row_fits lim row1); simpl.
  - destruct (IH row1 g' (S n)) as [IH1 IH2].
    split; [by apply suffix_cons_r | done].
  - split; [by apply suffix_cons_r | done].
Qed.

Lemma read_row_rows lim r f :
  rows (read_row lim r f).2 `suffix_of` rows f
  ∧ (∀ x, (read_row lim r f).1.1 = Yield x →
     length (rows (read_row lim r f).2) < length (rows f))
  ∧ ((read_row lim r f).1.1 = StopIteration → rows (read_row lim r f).2 = []).
Proof.
  unfold read_row. pose proof (reader_next_rows lim r f) as (Hs & Hlt & Hnone).
  destruct (reader_next lim r f) as [[[row| |e] r2] f2]; simpl in *;
    [| split_and!; [done | done | by intros _; apply Hnone]
     | by split_and!].
  clear Hnone. specialize (Hlt row eq_refl).
  assert (∃ cand rest g n,
            (if lt_one (self_fraction r2)
             then skip_loop lim (self_fraction r2) row (rows f2) (self_rng r2)
                            (reader_line_num r2)
             else (Yield row, rows f2, self_rng r2, reader_line_num r2))
            = (cand, rest, g, n)
            ∧ rest `suffix_of` rows f2
            ∧ (cand = StopIteration → rest = []))
    as (cand & rest & g & n & -> & Hr & Hc).
  { destruct (lt_one (self_fraction r2)).
    - pose proof (skip_loop_rows lim (self_fraction r2) (rows f2) row
                    (self_rng r2) (reader_line_num r2)) as [H1 H2].
      destruct (skip_loop _ _ _ _ _ _) as [[[cand rest] g] n].
      by eexists _, _, _, _.
    - eexists _, _, _, _. by split_and!. }
  destruct cand as [row'| |e]; simpl.
  - match goal with
    | |- context [fieldnames lim ?r3 ?f3] =>
        pose proof (fieldnames_rows lim r3 f3) as Hf;
        destruct (fieldnames lim r3 f3) as [[[[hd|]|e] r4] f4]
    end; simpl in *.
    + split_and!; [by do 2 (etrans; [done |]) | | done].
      intros _ _. apply suffix_length in Hf, Hr. lia.
    + split_and!; [by do 2 (etrans; [done |]) | done | done].
    + split_and!; [by do 2 (etrans; [done |]) | done | done].
  - split_and!; [by etrans | done | by intros _; apply Hc].
  - split_and!; [by etrans | done | done].
Qed.

Lemma DictReader_next_rows lim r f :
  rows (DictReader_next lim r f).2 `suffix_of` rows f
  ∧ (∀ x, (DictReader_next lim r f).1.1 = Yield x →
     length (rows (DictReader_next lim r f).2) < length (rows f))
  ∧ ((DictReader_next lim r f).1.1 = StopIteration →
     rows (DictReader_next lim r f).2 = []).
Proof.
  unfold DictReader_next. pose proof (ensure_header_rows lim r f) as He.
  destruct (ensure_header lim r f) as [[[[]|e] r1] f1]; simpl in He;
    [| by split_and!].
  pose proof (read_row_rows lim r1 f1) as (Hs & Hy & Hn).
  split_and!; [by etrans | | done].
  intros x Hx. specialize (Hy x Hx). apply suffix_length in He. lia.
Qed.

(** X11. The reader never goes back in the stream: whatever its state and
    the limit in force, after a pull the rows left to read are a suffix of
    those there were, strictly fewer when the pull returned a record, and
    none when it signalled the end. *)
Theorem pull_moves_forward lim r f :
  rows (DictReader_next lim r f).2 `suffix_of` rows f
  ∧ (∀ x, (DictReader_next lim r f).1.1 = Yield x →
     length (rows (DictReader_next lim r f).2) < length (rows f))
  ∧ ((DictReader_next lim r f).1.1 = StopIteration →
     rows (DictReader_next lim r f).2 = []).
Proof. apply DictReader_next_rows. Qed.

(** ** How sessions end *)

Lemma consume_exhausted_rows cfg : ∀ fuel limit r w,
  (consume cfg fuel (Suspended limit r) w).1.1.2 = Exhausted →
  rows (buffer (consume cfg fuel (Suspended limit r) w).2) = [].
Proof.
  induction fuel as [|fuel IH]; intros limit r w; [done |].
  simpl. unfold loop_step, csv_set_field_size_limit.
  pose proof (DictReader_next_rows (csv_field_size_limit w) r (buffer w))
    as (_ & _ & Hstop).
  destruct (DictReader_next _ r (buffer w)) as [[[x| |ex] r'] f']; simpl in *.
  - destruct (process_record cfg x); [| done].
    specialize (IH limit r' (set_buffer f' w)).
    destruct (consume cfg fuel _ _) as [[[ys en] gs] w']. simpl in *. apply IH.
  - destruct (in_long limit); [| done]. intros _. by apply Hstop.
  - done.
Qed.

(** X12. A session that ends normally has read its stream to the end, down
    to the rows sampling discarded after the last pair it yielded. *)
Theorem exhausted_session_read_everything cfg w :
  (iter_csv cfg w).1.1.2 = Exhausted →
  rows (buffer (iter_csv cfg w).2) = [].
Proof.
  unfold iter_csv. rewrite consume_created.
  destruct (field_size_limit cfg) as [l|].
  - destruct (in_long l); [apply consume_exhausted_rows | done].
  - apply consume_exhausted_rows.
Qed.

(** X13. Over a stream with no data row (empty, or with its header line
    only) a session never yields a pair, whatever the configuration; and
    when nothing prevents it from reading the stream it ends normally: a
    drop list or a table that no record could satisfy goes unnoticed. *)
Theorem no_data_rows cfg w :
  length (rows (buffer w)) ≤ 1 →
  (iter_csv cfg w).1.1.1 = []
  ∧ (clean cfg w = true → (iter_csv cfg w).1.1.2 = Exhausted).
Proof.
  intros Hlen. pose proof (iter_csv_run_body cfg w) as Hb.
  assert (session_records cfg w = []) as Hrec.
  { pose proof (session_records_sublist cfg w) as Hdesc.
    destruct (rows (buffer w)) as [|h [|row data]]; [done | | simpl in Hlen; lia].
    destruct Hdesc as (sub & Hsub & ->). by apply sublist_nil_r in Hsub as ->. }
  rewrite Hrec in Hb. simpl in Hb. injection Hb as Hys Hen. split; [done |].
  intros (lim & _ & _ & _ & _ & Hend)%clean_session. congruence.
Qed.

(** X14. A session never yields more pairs than the stream has data rows. *)
Theorem at_most_one_pair_per_row cfg w :
  length (iter_csv cfg w).1.1.1 ≤ length (tail (rows (buffer w))).
Proof.
  pose proof (iter_csv_run_body cfg w) as Hb.
  pose proof (run_body_length cfg (session_records cfg w) (session_end cfg w))
    as Hlen.
  rewrite <- Hb in Hlen. simpl in Hlen.
  pose proof (session_records_sublist cfg w) as Hdesc.
  destruct (rows (buffer w)) as [|h data]; simpl.
  - by rewrite Hdesc in Hlen.
  - destruct Hdesc as (sub & Hsub & Hrec).
    rewrite Hrec, length_fmap in Hlen.
    apply sublist_length in Hsub. lia.
Qed.

(** ** The limit while a session is under way *)

Lemma loop_step_suspended cfg limit r w out l' r' w' :
  loop_step cfg limit r w = (out, Suspended l' r', w') →
  l' = limit ∧ csv_field_size_limit w' = csv_field_size_limit w
  ∧ closed (buffer w') = closed (buffer w).
Proof.
  unfold loop_step, csv_set_field_size_limit.
  pose proof (DictReader_next_closed (csv_field_size_limit w) r (buffer w)) as Hc.
  destruct (DictReader_next _ r (buffer w)) as [[[x| |ex] r1] f1];
    [| by destruct (in_long limit) | done].
  destruct (process_record cfg x); [| done]. by intros [= <- <- <- <-].
Qed.

Lemma loop_step_not_created cfg limit r w :
  (loop_step cfg limit r w).1.2 ≠ Created.
Proof.
  unfold loop_step, csv_set_field_size_limit.
  destruct (DictReader_next _ r (buffer w)) as [[[x| |ex] r1] f1]; simpl;
    [by destruct (process_record cfg x) | by destruct (in_long limit) | done].
Qed.

(** What holds after any number of pulls on a fresh generator. *)
Lemma pulls_invariant cfg w : ∀ n,
  ((pulls cfg n w).1 = Created → (pulls cfg n w).2 = w)
  ∧ ∀ saved r, (pulls cfg n w).1 = Suspended saved r →
      saved = csv_field_size_limit w
      ∧ csv_field_size_limit (pulls cfg n w).2 =
          default (csv_field_size_limit w) (field_size_limit cfg)
      ∧ closed (buffer (pulls cfg n w).2) = closed (buffer w).
Proof.
  induction n as [|n [IHc IHs]]; [done |].
  simpl. destruct (pulls cfg n w) as [gs w1]. simpl in *.
  destruct (iter_csv_next cfg gs w1) as [[out gs'] w2] eqn:Hstep. simpl.
  destruct gs as [|saved0 r0|]; simpl in Hstep.
  - rewrite (IHc eq_refl) in Hstep. unfold csv_set_field_size_limit in Hstep.
    destruct (field_size_limit cfg) as [l|]; simpl.
    + destruct (in_long l).
      * pose proof (loop_step_not_created cfg (csv_field_size_limit w)
          (DictReader_init (fraction cfg) (Random (seed cfg) (set_limit l w)))
          (set_limit l w)) as Hnc.
        rewrite Hstep in Hnc. split; [done |].
        intros saved r ->. by apply loop_step_suspended in Hstep as (-> & -> & ->).
      * injection Hstep as _ <- <-. done.
    + pose proof (loop_step_not_created cfg (csv_field_size_limit w)
          (DictReader_init (fraction cfg) (Random (seed cfg) w)) w) as Hnc.
      rewrite Hstep in Hnc. split; [done |].
      intros saved r ->. by apply loop_step_suspended in Hstep as (-> & -> & ->).
  - destruct (IHs saved0 r0 eq_refl) as (IH1 & IH2 & IH3).
    pose proof (loop_step_not_created cfg saved0 r0 w1) as Hnc.
    rewrite Hstep in Hnc. split; [done |].
    intros saved r ->. apply loop_step_suspended in Hstep as (-> & -> & ->). done.
  - injection Hstep as _ <- <-. done.
Qed.

(** X15. With a [field_size_limit], as long as the generator is suspended
    at a [yield] the csv limit in force is the session's, and the value the
    generator keeps for the end is the limit the session found. *)
Theorem override_in_force_while_suspended cfg w l n saved r :
  field_size_limit cfg = Some l →
  (pulls cfg n w).1 = Suspended saved r →
  csv_field_size_limit (pulls cfg n w).2 = l
  ∧ saved = csv_field_size_limit w.
Proof.
  intros Hl Hs.
  destruct (proj2 (pulls_invariant cfg w n) saved r Hs) as (-> & Hlim & _).
  by rewrite Hlim, Hl.
Qed.

(** X16. As long as the generator is suspended at a [yield] the stream has
    not been closed by the session: a caller that stops pulling leaves it
    as open as it was. *)
Theorem suspended_session_keeps_stream_open cfg w n saved r :
  (pulls cfg n w).1 = Suspended saved r →
  closed (buffer (pulls cfg n w).2) = closed (buffer w).
Proof.
  intros Hs. by destruct (proj2 (pulls_invariant cfg w n) saved r Hs) as (_ & _ & ?).
Qed.

(** ** The header *)

(** X18. The header is read once: a fresh reader over an open stream takes
    it from the first line, provided that line fits the limit, whatever the
    pull then returns; and a reader that has a header keeps it, and its
    fraction, through every pull, failed ones included. *)
Theorem header_is_read_once lim r f :
  (∀ h, _fieldnames r = Some h →
     _fieldnames (DictReader_next lim r f).1.2 = Some h
     ∧ self_fraction (DictReader_next lim r f).1.2 = self_fraction r)
  ∧ (∀ h data, _fieldnames r = None → line_num r = 0 →
     closed f = false → rows f = h :: data → row_fits lim h = true →
     _fieldnames (DictReader_next lim r f).1.2 = Some h).
Proof.
  split.
  - intros h Hh.
    destruct (DictReader_next_known lim h r f Hh) as (r1 & -> & Hh1 & Hfr1 & _).
    destruct (closed f) eqn:Hc.
    + unfold read_row, reader_next. rewrite Hc. done.
    + destruct (read_row_known lim h r1 f Hh1 Hc)
        as (out & r' & f' & -> & ? & ? & _).
      simpl. split; [done | congruence].
  - intros h data Hn Hl Hc Hrows Hfit.
    pose proof (ensure_header_fresh lim r f Hn Hl Hc) as Hfresh.
    rewrite Hrows, Hfit in Hfresh. destruct Hfresh as (r1 & He & Hh1 & _).
    unfold DictReader_next. rewrite He.
    by destruct (read_row_known lim h r1 (mkFile data (closed f)) Hh1 Hc)
      as (out & r' & f' & -> & ? & _).
Qed.

(** ** What the reader and the csv module refuse *)

(** X19. A [field_size_limit] that is not a C long makes the very first
    pull raise OverflowError: nothing is yielded, and the process is left
    exactly as it was, limit and stream included. *)
Theorem limit_out_of_range cfg w l :
  field_size_limit cfg = Some l →
  in_long l = false →
  iter_csv cfg w = ([], Aborted OverflowError, Finished, w).
Proof.
  intros Hl Hlong. unfold iter_csv. by rewrite consume_created, Hl, Hlong.
Qed.

(** X20. A session over a stream that is already closed yields nothing and
    ends with the ValueError of the header read, leaving the limit it
    installed in force. *)
Theorem closed_stream_aborts cfg w lim :
  session_limit cfg w = Some lim →
  closed (buffer w) = true →
  (iter_csv cfg w).1.1.1 = []
  ∧ (iter_csv cfg w).1.1.2 = Aborted ValueError
  ∧ csv_field_size_limit (iter_csv cfg w).2 = lim.
Proof.
  intros Hl Hc. pose proof (iter_csv_run_body cfg w) as Hb.
  destruct (session_desc cfg w lim Hl) as [Hrec Hend].
  unfold reader_records in Hrec. unfold reader_end in Hend.
  rewrite Hc in Hrec, Hend. rewrite Hrec, Hend in Hb. simpl in Hb.
  injection Hb as Hys Hen. split_and!; [done | done |].
  destruct (iter_csv cfg w) as [[[ys en] gs] w'] eqn:Hrun.
  apply iter_csv_world in Hrun as [_ Hw]. simpl in *. subst en.
  destruct Hw as [-> _]. by rewrite Hl.
Qed.

(** X21. With sampling off, a data row with a field longer than the limit
    in force ends the session with [csv.Error], after the pairs of the rows
    before it have been yielded; the rows behind it are never looked at. *)
Theorem oversize_field_aborts cfg w lim h pre bad post ps :
  (1 <= fraction cfg)%Q →
  session_limit cfg w = Some lim →
  closed (buffer w) = false →
  rows (buffer w) = h :: pre ++ bad :: post →
  rows_fit lim (h :: pre) = true →
  row_fits lim bad = false →
  Forall2 (λ row p, process_record cfg (dict_zip h row) = Ok p) pre ps →
  (iter_csv cfg w).1.1.1 = ps ∧ (iter_csv cfg w).1.1.2 = Aborted csv_Error.
Proof.
  intros Hfr%lt_one_false Hl Hc Hrows Hfit Hbad HF.
  pose proof (iter_csv_run_body cfg w) as Hb.
  destruct (session_desc cfg w lim Hl) as [Hrec Hend].
  unfold reader_records in Hrec. unfold reader_end in Hend.
  rewrite Hc, Hrows in Hrec, Hend.
  simpl in Hfit. apply andb_true_iff in Hfit as [Hfh Hfp].
  assert (fit_prefix lim (pre ++ bad :: post) = pre) as Hpre.
  { clear -Hfp Hbad. induction pre as [|row pre IH]; simpl in *.
    - by rewrite Hbad.
    - apply andb_true_iff in Hfp as [-> Hfp]. by rewrite IH. }
  assert (rows_fit lim (h :: pre ++ bad :: post) = false) as Hnot.
  { clear -Hbad. simpl. apply andb_false_iff. right.
    induction pre as [|row pre IH]; simpl.
    - by rewrite Hbad.
    - apply andb_false_iff. by right. }
  rewrite Hfh, Hpre in Hrec. unfold accepted_rows in Hrec. rewrite Hfr in Hrec.
  rewrite Hnot in Hend. simpl in Hend.
  rewrite Hrec, Hend, (run_body_all_ok cfg _ ps (Aborted csv_Error)) in Hb.
  - by injection Hb.
  - by apply Forall2_fmap_l.
Qed.

End Properties.

(** * The properties on concrete sessions *)

Ltac by_compute := vm_compute; first [reflexivity | exact I | discriminate].
Ltac by_decide := apply (bool_decide_unpack _); vm_compute; exact I.

Section Concrete.
Import Toy.
Local Existing Instance Toy.runtime.

(** A converter followed by a date format on the target field: the target
    that is yielded is the parsed date, not what the converter returned. *)
Lemma target_with_date_format_counterexample :
  (converters year_target = Some [("year", first4)]
   ∧ target_name year_target = Some "year")
  ∧ dict_zip ["name"; "year"] ["Planet Earth II"; "2016-11"] !! "year"
    = Some (VStr "2016-11")
  ∧ first4 (VStr "2016-11") = Ok (VStr "2016")
  ∧ (iter_csv year_target (world releases)).1.1.1.*2
    = [VDatetime (Datetime 2016 1 1 0 0 0 0)]
  ∧ VDatetime (Datetime 2016 1 1 0 0 0 0) ≠ VStr "2016".
Proof. split_and!; try by_compute. Qed.

(** A row of one value and a row of three under a header of two names: both
    are handed out as records and the iteration ends normally. *)
Lemma ragged_rows_counterexample :
  let it := DictReader_iter 131072 4 (DictReader_init 1 (rng_seed 0))
                            (mkFile ragged false) in
  it.1.1.2 = Exhausted
  ∧ (λ x : gmap string value, x !! "a") <$> it.1.1.1
    = [Some (VStr "1"); Some (VStr "1")]
  ∧ (λ x : gmap string value, x !! "b") <$> it.1.1.1
    = [None; Some (VStr "2")]
  ∧ (λ x : gmap string value, size x) <$> it.1.1.1 = [1; 2].
Proof. split_and!; by_compute. Qed.

(** A session that aborts on its first record leaves the stream open and
    the limit at the session's value. *)
Lemma abort_skips_cleanup_counterexample :
  let res := iter_csv drop_unknown (world tv_shows) in
  res.1.1.2 = Aborted (KeyError "zzz")
  ∧ closed (buffer res.2) ≠ true
  ∧ csv_field_size_limit (world tv_shows) = 131072%Z
  ∧ csv_field_size_limit res.2 = 262144%Z.
Proof. split_and!; by_compute. Qed.

(** [rating] is dropped and has a converter, but the converter of [year]
    runs first and raises a ValueError. *)
Lemma earlier_converter_counterexample :
  let res := iter_csv drop_and_convert (world roman) in
  drop drop_and_convert = Some ["rating"]
  ∧ (fst <$> default [] (converters drop_and_convert)) = ["year"; "rating"]
  ∧ res.1.1.1 = []
  ∧ res.1.1.2 = Aborted ValueError
  ∧ ¬ is_KeyError ValueError.
Proof. split_and!; try by_compute. by intros []. Qed.

(** The ratings of the three shows, converted, come out as targets. *)
Lemma target_is_converted_raw_value_witness :
  let p := default (∅, VNone) (head (iter_csv rated (world tv_shows)).1.1.1) in
  p ∈ (iter_csv rated (world tv_shows)).1.1.1
  ∧ ∃ h data row s x1 x2 x3,
      rows (buffer (world tv_shows)) = h :: data ∧ row ∈ data
      ∧ drop_stage (drop rated) (dict_zip h row) = Ok x1
      ∧ convert_stage (converters rated) x1 = Ok x2
      ∧ parse_stage (parse_dates rated) x2 = Ok x3
      ∧ pop (target_name rated) x3 = p
      ∧ dict_zip h row !! "rating" = Some (VStr s)
      ∧ to_int (VStr s) = Ok p.2.
Proof.
  intros p.
  assert (p ∈ (iter_csv rated (world tv_shows)).1.1.1) as Hin
    by (vm_compute; left).
  split; [exact Hin |].
  destruct p as [feat y] eqn:Hp.
  apply (target_is_converted_raw_value rated (world tv_shows)
           [("rating", to_int)] "rating" to_int feat y).
  - reflexivity.
  - by_decide.
  - left.
  - reflexivity.
  - intros q [= <-]. by_decide.
  - exact Hin.
Defined.

(** The target of the first pair of the same session. *)
Lemma target_split_witness :
  let p := default (∅, VNone) (head (iter_csv rated (world tv_shows)).1.1.1) in
  ∃ h data row x3,
    rows (buffer (world tv_shows)) = h :: data ∧ row ∈ data
    ∧ transform rated (dict_zip h row) = Ok x3
    ∧ ((target_name rated = None
        ∨ ∃ k, target_name rated = Some k ∧ x3 !! k = None) →
       p.2 = VNone ∧ p.1 = x3)
    ∧ (∀ k v, target_name rated = Some k → x3 !! k = Some v →
       p.2 = v ∧ p.1 = delete k x3 ∧ p.1 !! k = None).
Proof.
  intros p.
  apply (target_split rated (world tv_shows) p.1 p.2).
  vm_compute; left.
Defined.

(** The converter raises on the second record; the first pair has been
    yielded. *)
Lemma failure_aborts_iteration_witness :
  let recs := session_records rated (world unrated) in
  let x1 := default ∅ (recs !! 0) in
  let x2 := default ∅ (recs !! 1) in
  let p1 := match process_record rated x1 with Ok p => p | Raise _ => (∅, VNone) end in
  stage_failure rated x2 ValueError
  ∧ ∃ w', iter_csv rated (world unrated) = ([p1], Aborted ValueError, Finished, w')
          ∧ iter_csv_next rated Finished w' = (StopIteration, Finished, w').
Proof.
  intros recs x1 x2 p1.
  assert (stage_failure rated x2 ValueError) as Hfail.
  { apply (converter_raises rated x2 [] "rating" to_int [] x2 x2 (VStr "n/a"));
      by_compute. }
  split; [exact Hfail |].
  apply (failure_aborts_iteration rated (world unrated) [x1] x2
           (skipn 2 recs) [p1] ValueError).
  - by_compute.
  - constructor; [by_compute | constructor].
  - exact Hfail.
Defined.

(** [rating] is dropped, then converted after [year]: the converter of
    [year] succeeds on the first show, and the lookup of [rating] raises
    [KeyError('rating')]. *)
Lemma dropped_then_looked_up_witness :
  let recs := session_records drop_and_convert (world tv_shows) in
  let x := default ∅ (head recs) in
  recs = x :: tail recs
  ∧ ∃ w', iter_csv drop_and_convert (world tv_shows)
          = ([], Aborted (KeyError "rating"), Finished, w').
Proof.
  intros recs x.
  assert (recs = x :: tail recs) as Hrecs by by_compute.
  split; [exact Hrecs |].
  destruct (dropped_then_looked_up drop_and_convert (world tv_shows) ["rating"]
              "rating" x (tail recs))
    as (e & w' & Hrun & _ & Hconv & _).
  - reflexivity.
  - left.
  - left. exists [("year", to_int); ("rating", to_int)].
    split; [reflexivity | by_decide].
  - exact Hrecs.
  - exists w'.
    rewrite <- (Hconv [("year", to_int)] to_int []
                  (delete "rating" x) (<["year" := VInt 2016]> (delete "rating" x))).
    + exact Hrun.
    + reflexivity.
    + by_compute.
    + by_compute.
Defined.

(** Fraction one half and the draws 0.9, 0.5, 0.0 over the three shows: the
    first pull reads the header, discards the first data row and returns
    the second; the next pull returns the third; the one after finds the
    stream empty. *)
Lemma sampling_pull_witness :
  let h := ["name"; "year"; "rating"] in
  let r := DictReader_init (1 # 2) (rng_seed 59) in
  let f := mkFile tv_shows false in
  let r1 := (DictReader_next 131072 r f).1.2 in
  let f1 := (DictReader_next 131072 r f).2 in
  let r2 := (DictReader_next 131072 r1 f1).1.2 in
  let f2 := (DictReader_next 131072 r1 f1).2 in
  (∃ x r' f',
     DictReader_next 131072 r f = (Yield x, r', f')
     ∧ x = dict_zip h ["Planet Earth"; "2006"; "94"]
     ∧ zipped h ["Planet Earth"; "2006"; "94"] x
     ∧ rows f' = [["Band of Brothers"; "2001"; "94"]]
     ∧ self_rng r' = rng_iter 2 (rng_seed 59))
  ∧ (∃ x r' f',
       DictReader_next 131072 r1 f1 = (Yield x, r', f')
       ∧ x = dict_zip h ["Band of Brothers"; "2001"; "94"]
       ∧ zipped h ["Band of Brothers"; "2001"; "94"] x
       ∧ rows f' = []
       ∧ self_rng r' = rng_iter 1 (self_rng r1))
  ∧ (∃ r' f', DictReader_next 131072 r2 f2 = (StopIteration, r', f')
              ∧ rows f' = []).
Proof.
  intros h r f r1 f1 r2 f2. split_and!.
  - pose proof (sampling_pull 131072 r f h (tail tv_shows))
      as (_ & _ & Haccept & _).
    + reflexivity.
    + reflexivity.
    + apply header_pending; reflexivity.
    + apply (Haccept 1 ["Planet Earth"; "2006"; "94"]).
      * reflexivity.
      * reflexivity.
      * intros [|j] Hj; [by_compute | lia].
      * by_compute.
  - pose proof (sampling_pull 131072 r1 f1 h [["Band of Brothers"; "2001"; "94"]])
      as (_ & _ & Haccept & _).
    + reflexivity.
    + reflexivity.
    + apply header_known; reflexivity.
    + apply (Haccept 0 ["Band of Brothers"; "2001"; "94"]).
      * reflexivity.
      * reflexivity.
      * intros j Hj. lia.
      * by_compute.
  - pose proof (sampling_pull 131072 r2 f2 h []) as (_ & Hempty & _).
    + reflexivity.
    + reflexivity.
    + apply header_known; reflexivity.
    + by apply Hempty.
Defined.

(** The first pull over the ragged rows. *)
Lemma ragged_row_is_zipped_witness :
  let r := DictReader_init 1 (rng_seed 0) in
  let f := mkFile ragged false in
  let res := DictReader_next 131072 r f in
  (∀ e, res.1.1 = Raised e →
     (e = csv_Error ∧ rows_fit 131072 [["1"]; ["1"; "2"; "3"]] = false)
     ∨ (e = ValueError ∧ false = true))
  ∧ (∀ x, res.1.1 = Yield x →
     ∃ row, row ∈ [["1"]; ["1"; "2"; "3"]] ∧ x = dict_zip ["a"; "b"] row
       ∧ dom x = list_to_set (take (length row) ["a"; "b"])
       ∧ (NoDup ["a"; "b"] → ∀ i nm, ["a"; "b"] !! i = Some nm →
          x !! nm = VStr <$> row !! i)).
Proof.
  intros r f res.
  apply (ragged_row_is_zipped 131072 ["a"; "b"] r f
           (ensure_header 131072 r f).1.2 (ensure_header 131072 r f).2
           res.1.1 res.1.2 res.2); reflexivity.
Defined.

(** Fraction 1 on the three shows. *)
Lemma identity_sampling_witness :
  let h := ["name"; "year"; "rating"] in
  ∃ xs r' f',
    DictReader_iter 131072 5 (DictReader_init 1 (rng_seed 7))
                    (mkFile tv_shows false) = (xs, Exhausted, r', f')
    ∧ xs = dict_zip h <$> tail tv_shows
    ∧ Forall2 (zipped h) (tail tv_shows) xs
    ∧ self_rng r' = rng_seed 7.
Proof.
  intros h.
  apply (identity_sampling 131072 1 (rng_seed 7) (mkFile tv_shows false) 5).
  - reflexivity.
  - simpl. lia.
  - reflexivity.
  - reflexivity.
Defined.

(** One seed, one stream, one limit; two processes that differ in the
    entropy an unseeded generator would get. *)
Lemma seeded_sessions_agree_witness :
  let w1 := world tv_shows in
  let w2 := mkWorld 131072 (mkFile tv_shows false) 12345 in
  (iter_csv halved w1).1.1.1 = (iter_csv halved w2).1.1.1
  ∧ (iter_csv halved w1).1.1.2 = (iter_csv halved w2).1.1.2
  ∧ ∃ sub, sub `sublist_of` tail tv_shows
      ∧ Forall2 (λ row p, process_record halved
                            (dict_zip ["name"; "year"; "rating"] row) = Ok p)
                sub (iter_csv halved w1).1.1.1.
Proof.
  intros w1 w2.
  apply (seeded_sessions_agree halved 59 w1 w2); reflexivity.
Defined.

(** A session that runs to its end under a larger limit, and one that
    aborts on its first record under the same limit. *)
Lemma cleanup_only_on_exhaustion_witness :
  let finished := iter_csv larger_limit (world tv_shows) in
  let failed := iter_csv drop_unknown (world tv_shows) in
  (finished.1.1.2 = Exhausted
   ∧ closed (buffer finished.2) = true
   ∧ csv_field_size_limit finished.2 = 131072%Z)
  ∧ (failed.1.1.2 = Aborted (KeyError "zzz")
     ∧ closed (buffer failed.2) = false
     ∧ csv_field_size_limit failed.2 = 262144%Z).
Proof.
  intros finished failed. split.
  - assert (finished.1.1.2 = Exhausted) as Hen by by_compute.
    split; [exact Hen |].
    pose proof (cleanup_only_on_exhaustion larger_limit (world tv_shows) eq_refl)
      as Hclean.
    fold finished in Hclean. rewrite Hen in Hclean. exact Hclean.
  - assert (failed.1.1.2 = Aborted (KeyError "zzz")) as Hen by by_compute.
    split; [exact Hen |].
    pose proof (cleanup_only_on_exhaustion drop_unknown (world tv_shows) eq_refl)
      as Hclean.
    fold failed in Hclean. rewrite Hen in Hclean. exact Hclean.
Defined.

(** A session with the defaults. *)
Lemma limit_untouched_without_override_witness :
  (∀ n, csv_field_size_limit (pulls defaults n (world tv_shows)).2 = 131072%Z
        ∧ ∀ l r, (pulls defaults n (world tv_shows)).1 = Suspended l r →
                 l = 131072%Z)
  ∧ csv_field_size_limit (iter_csv defaults (world tv_shows)).2 = 131072%Z.
Proof.
  apply (limit_untouched_without_override defaults (world tv_shows)).
  reflexivity.
Defined.


(** * Further properties on concrete sessions *)

(** The year is dropped and asked for as target. *)
Lemma dropped_field_is_gone_witness :
  let p := default (∅, VNone) (head (iter_csv drop_target (world tv_shows)).1.1.1) in
  p ∈ (iter_csv drop_target (world tv_shows)).1.1.1
  ∧ p.1 !! "year" = None ∧ (target_name drop_target = Some "year" → p.2 = VNone).
Proof.
  intros p.
  assert (p ∈ (iter_csv drop_target (world tv_shows)).1.1.1) as Hin
    by (vm_compute; left).
  split; [exact Hin |].
  apply (dropped_field_is_gone drop_target (world tv_shows) ["year"] "year" p.1 p.2).
  - reflexivity.
  - left.
  - vm_compute; left.
Defined.

(** The drop list names [zzz], which the three shows do not have. *)
Lemma drop_of_unknown_field_witness :
  (iter_csv drop_unknown (world tv_shows)).1.1.1 = []
  ∧ ∃ m, (iter_csv drop_unknown (world tv_shows)).1.1.2 = Aborted (KeyError m).
Proof.
  destruct (drop_of_unknown_field drop_unknown (world tv_shows)
              ["name"; "year"; "rating"] (tail tv_shows) ["zzz"] "zzz")
    as [Hys Hen].
  - reflexivity.
  - reflexivity.
  - left.
  - by_decide.
  - split; [exact Hys |]. apply Hen. by_compute.
Defined.

(** [name] twice in the drop list. *)
Lemma duplicate_drop_name_witness :
  (∀ x, ∃ m, process_record drop_twice x = Raise (KeyError m))
  ∧ (iter_csv drop_twice (world tv_shows)).1.1.1 = [].
Proof.
  apply (duplicate_drop_name drop_twice (world tv_shows) ["name"; "name"]).
  - reflexivity.
  - by_decide.
Defined.

(** The keys of the first pair of the rated session. *)
Lemma feature_keys_witness :
  let p := default (∅, VNone) (head (iter_csv rated (world tv_shows)).1.1.1) in
  ∃ h data row,
    rows (buffer (world tv_shows)) = h :: data ∧ row ∈ data
    ∧ dom p.1 =
        (list_to_set (take (length row) h) ∖ list_to_set (default [] (drop rated)))
        ∖ match target_name rated with Some k => {[k]} | None => ∅ end.
Proof.
  intros p. apply (feature_keys rated (world tv_shows) p.1 p.2).
  vm_compute; left.
Defined.

(** The name of the first show is in no table. *)
Lemma untouched_field_is_raw_witness :
  let p := default (∅, VNone) (head (iter_csv rated (world tv_shows)).1.1.1) in
  p.1 !! "name" = Some (VStr "Planet Earth II")
  ∧ ∃ h data row s,
      rows (buffer (world tv_shows)) = h :: data ∧ row ∈ data ∧ s ∈ row
      ∧ dict_zip h row !! "name" = Some (VStr s)
      ∧ VStr "Planet Earth II" = VStr s.
Proof.
  intros p.
  assert (p.1 !! "name" = Some (VStr "Planet Earth II")) as Hk by by_compute.
  split; [exact Hk |].
  apply (untouched_field_is_raw rated (world tv_shows) p.1 p.2 "name"
           (VStr "Planet Earth II")).
  - by_decide.
  - by_decide.
  - vm_compute; left.
  - exact Hk.
Defined.

(** Both tables at work on the first show. *)
Lemma field_by_field_witness :
  let p := default (∅, VNone) (head (iter_csv rated (world tv_shows)).1.1.1) in
  ∃ h data row,
    rows (buffer (world tv_shows)) = h :: data ∧ row ∈ data
    ∧ (∀ k u, p.1 !! k = Some u →
       ∃ s, dict_zip h row !! k = Some (VStr s)
            ∧ field_value rated k (VStr s) = Ok u)
    ∧ (∀ k s, target_name rated = Some k →
       k ∉ default [] (drop rated) →
       dict_zip h row !! k = Some (VStr s) →
       field_value rated k (VStr s) = Ok p.2).
Proof.
  intros p. apply (field_by_field rated (world tv_shows) p.1 p.2).
  - by_decide.
  - by_decide.
  - vm_compute; left.
Defined.

(** A header with [a] twice. *)
Lemma last_column_wins_witness :
  dict_zip ["a"; "b"; "a"] ["1"; "2"; "3"] !! "a" = Some (VStr "3").
Proof.
  apply (last_column_wins ["a"; "b"; "a"] ["1"; "2"; "3"] 2 "a" "3").
  - reflexivity.
  - reflexivity.
  - intros j Hj1 Hj2. simpl in Hj2. lia.
Defined.

(** Fraction minus one half over the three shows. *)
Lemma negative_fraction_yields_nothing_witness :
  (iter_csv negative (world tv_shows)).1.1.1 = []
  ∧ (iter_csv negative (world tv_shows)).1.1.2 = Exhausted.
Proof.
  destruct (negative_fraction_yields_nothing negative (world tv_shows))
    as [Hys Hen].
  - reflexivity.
  - split; [exact Hys |]. apply Hen. reflexivity.
Defined.

(** Fraction 2. *)
Lemma no_sampling_from_one_up_witness :
  let h := ["name"; "year"; "rating"] in
  (iter_csv doubled (world tv_shows)).1.1.1
    = (λ row, pair_of doubled (dict_zip h row)) <$> tail tv_shows
  ∧ (iter_csv doubled (world tv_shows)).1.1.2 = Exhausted.
Proof.
  intros h.
  apply (no_sampling_from_one_up doubled (world tv_shows) h (tail tv_shows)).
  - by_compute.
  - reflexivity.
  - reflexivity.
  - simpl. repeat (constructor; [by_compute |]). constructor.
Defined.

(** Fraction one half and the draws 0.9, 0.5, 0.0 over the three shows. *)
Lemma one_trial_per_row_witness :
  ∃ r' f',
    DictReader_iter 131072 5 (DictReader_init (1 # 2) (rng_seed 59))
                    (mkFile tv_shows false) =
      (dict_zip ["name"; "year"; "rating"] <$>
         (filter (λ ir, exceeds (draw ir.1 (rng_seed 59)) (1 # 2) = false)
                 (imap pair (tail tv_shows))).*2,
       Exhausted, r', f')
    ∧ self_rng r' = rng_iter 3 (rng_seed 59).
Proof.
  apply (one_trial_per_row 131072 (1 # 2) (rng_seed 59) ["name"; "year"; "rating"]
           (tail tv_shows) 5).
  - reflexivity.
  - simpl. lia.
  - reflexivity.
Defined.

(** The first pull over the three shows takes two lines off the stream. *)
Lemma pull_moves_forward_witness :
  let r := DictReader_init 1 (rng_seed 0) in
  let f := mkFile tv_shows false in
  length (rows (DictReader_next 131072 r f).2) < length (rows f).
Proof.
  intros r f.
  apply (proj1 (proj2 (pull_moves_forward 131072 r f))
           (dict_zip ["name"; "year"; "rating"] ["Planet Earth II"; "2016"; "95"])).
  by_compute.
Defined.

(** The last data row is discarded by sampling; the session ends normally. *)
Lemma exhausted_session_read_everything_witness :
  length (iter_csv halved_tail (world tv_shows)).1.1.1 = 2
  ∧ rows (buffer (iter_csv halved_tail (world tv_shows)).2) = [].
Proof.
  split; [by_compute |].
  apply (exhausted_session_read_everything halved_tail (world tv_shows)).
  by_compute.
Defined.

(** A header line only, and a drop list no record could satisfy. *)
Lemma no_data_rows_witness :
  (iter_csv drop_unknown (world [["name"; "year"; "rating"]])).1.1.1 = []
  ∧ (iter_csv drop_unknown (world [["name"; "year"; "rating"]])).1.1.2 = Exhausted.
Proof.
  destruct (no_data_rows drop_unknown (world [["name"; "year"; "rating"]]))
    as [Hys Hen].
  - simpl. lia.
  - split; [exact Hys |]. apply Hen. reflexivity.
Defined.

(** After two pulls the session's limit is in force. *)
Lemma override_in_force_while_suspended_witness :
  let st := pulls larger_limit 2 (world tv_shows) in
  csv_field_size_limit st.2 = 262144%Z
  ∧ 131072%Z = csv_field_size_limit (world tv_shows).
Proof.
  intros st.
  apply (override_in_force_while_suspended larger_limit (world tv_shows)
           262144 2 131072 (reader_of st.1)).
  - reflexivity.
  - by_compute.
Defined.

(** After two pulls the stream is still open. *)
Lemma suspended_session_keeps_stream_open_witness :
  let st := pulls larger_limit 2 (world tv_shows) in
  closed (buffer st.2) = closed (buffer (world tv_shows)).
Proof.
  intros st.
  apply (suspended_session_keeps_stream_open larger_limit (world tv_shows)
           2 131072 (reader_of st.1)).
  by_compute.
Defined.

(** A row of one value under a header of two, the target being the second. *)
Lemma short_row_has_no_target_witness :
  let p := pair_of second_column (dict_zip ["a"; "b"] ["1"]) in
  p.2 = VNone
  ∧ ("b" ∉ keys (converters second_column))
  ∧ ("b" ∉ keys (parse_dates second_column)).
Proof.
  intros p.
  apply (short_row_has_no_target second_column ["a"; "b"] ["1"] 1 "b" p.1 p.2).
  - by_decide.
  - reflexivity.
  - simpl. lia.
  - reflexivity.
  - by_compute.
Defined.

(** A fresh reader takes the first line of the three shows as header. *)
Lemma header_is_read_once_witness :
  _fieldnames (DictReader_next 131072 (DictReader_init 1 (rng_seed 0))
                               (mkFile tv_shows false)).1.2
  = Some ["name"; "year"; "rating"].
Proof.
  apply (proj2 (header_is_read_once 131072 (DictReader_init 1 (rng_seed 0))
                  (mkFile tv_shows false))
           ["name"; "year"; "rating"] (tail tv_shows)); reflexivity.
Defined.

(** A limit of 2 ** 63. *)
Lemma limit_out_of_range_witness :
  iter_csv huge_limit (world tv_shows)
  = ([], Aborted OverflowError, Finished, world tv_shows).
Proof.
  apply (limit_out_of_range huge_limit (world tv_shows) 9223372036854775808);
    reflexivity.
Defined.

(** The three shows in a stream that has been closed. *)
Lemma closed_stream_aborts_witness :
  let w := mkWorld 131072 (mkFile tv_shows true) 0 in
  (iter_csv larger_limit w).1.1.1 = []
  ∧ (iter_csv larger_limit w).1.1.2 = Aborted ValueError
  ∧ csv_field_size_limit (iter_csv larger_limit w).2 = 262144%Z.
Proof.
  intros w. apply (closed_stream_aborts larger_limit w 262144); reflexivity.
Defined.

(** Under a limit of 15 characters the third show cannot be read. *)
Lemma oversize_field_aborts_witness :
  let h := ["name"; "year"; "rating"] in
  let pre := [["Planet Earth II"; "2016"; "95"]; ["Planet Earth"; "2006"; "94"]] in
  (iter_csv tight_limit (world tv_shows)).1.1.1
    = (λ row, pair_of tight_limit (dict_zip h row)) <$> pre
  ∧ (iter_csv tight_limit (world tv_shows)).1.1.2 = Aborted csv_Error.
Proof.
  intros h pre.
  apply (oversize_field_aborts tight_limit (world tv_shows) 15 h pre
           ["Band of Brothers"; "2001"; "94"] []).
  - by_compute.
  - reflexivity.
  - reflexivity.
  - reflexivity.
  - reflexivity.
  - reflexivity.
  - simpl. repeat (constructor; [by_compute |]). constructor.
Defined.

End Concrete.
